(** * link-checker: the validation engine and its command-line pipeline

    A shallow embedding of [linkchecker/validator] (the worker pool, the HTTP
    and file checks) and of the result pipeline of [linkchecker/cli], with the
    properties of the written specification stated over it.

    The Go runtime and the standard library packages the code calls
    ([net/http], [os], [path/filepath], [net/url], the parsers) are the
    environment: they appear as the fields of [World].  Goroutines are the
    actors of a small-step transition system over channels. *)

From Stdlib Require Import ZArith Lia Ascii.
From stdpp Require Import base relations list strings gmap.

Open Scope Z_scope.

(** ** Go values used by the code *)

(** A Go call returning [(value, error)]. *)
Inductive result (A : Type) : Type :=
| Ok (a : A)
| Err (msg : string).
Arguments Ok {A} a.
Arguments Err {A} msg.

(** [strings.HasPrefix(s, prefix)]. *)
Definition HasPrefix (s prefix : string) : bool := String.prefix prefix s.

(** [strings.Contains(s, substr)]: [substr] starts at some position of [s]. *)
Fixpoint Contains (s substr : string) : bool :=
  HasPrefix s substr ||
  match s with
  | EmptyString => false
  | String _ rest => Contains rest substr
  end.

(** ** The environment *)

Inductive Method := HEAD | GET.

(** The part of an [*http.Response] the code and the client's redirect loop
    read: [StatusCode], [Status] (the status line, e.g. "404 Not Found") and
    the [Location] header, when there is one: the URL it resolves to against
    the request's URL, or the error of parsing it. *)
Record Response := {
  RespStatusCode : Z;
  RespStatus : string;
  RespLocation : option (result string)
}.

(** [os.FileInfo], as far as the code looks at it. *)
Record FileInfo := { IsDir : bool }.

(** One entry visited by [filepath.Walk]: the path, and what the walk hands
    to the callback (the entry's info, or the error met on the way). *)
Record WalkEntry := {
  WalkPath : string;
  WalkInfo : result FileInfo
}.

(** A parsed [*url.URL]: the scheme, the host and the text [String()]
    prints. *)
Record ParsedURL := {
  Scheme : string;
  Host : string;
  URLString : string
}.

(** The world a run meets.  It is fixed for the run: the same request, the
    same path, the same document get the same answer each time. *)
Record World := {
  (** [http.Transport]: the server's answer to one request made by a client
      with the given timeout, or the text of the error ([err.Error()]). *)
  transport : Z -> Method -> string -> result Response;
  (** [os.Stat]. *)
  Stat : string -> result FileInfo;
  (** [filepath.IsAbs], [filepath.Join], [filepath.Dir], [filepath.Ext]. *)
  IsAbs : string -> bool;
  Join : string -> string -> string;
  Dir : string -> string;
  Ext : string -> string;
  (** [strings.ToLower]. *)
  ToLower : string -> string;
  (** The entries [filepath.Walk] visits from a root, in its order. *)
  WalkEntries : string -> list WalkEntry;
  (** [parser.ExtractLinksFromFile]: open, read and parse a markdown file. *)
  ExtractLinksFromFile : string -> result (list string);
  (** [parser.ExtractLinksFromHTML]: the [href]s of a page, in document
      order. *)
  ExtractLinksFromHTML : string -> list string;
  (** [client.Get(inputURL)] of [processURL]'s own client (default redirect
      policy) with the given timeout, then [io.ReadAll(resp.Body)]: the outer
      result is the request's, the inner one the read's. *)
  FetchPage : Z -> string -> result (result string);
  (** [url.Parse] and [URL.ResolveReference]. *)
  Parse : string -> result ParsedURL;
  ResolveReference : ParsedURL -> ParsedURL -> ParsedURL;
  (** [regexp.Compile]: the compiled expression is used through
      [MatchString] only. *)
  Compile : string -> result (string -> bool)
}.

(** ** net/http: the client's redirect loop *)

(** What a [CheckRedirect] policy answers: [nil], [http.ErrUseLastResponse],
    or another error. *)
Inductive RedirectVerdict :=
| FollowRedirect
| UseLastResponse
| RefuseRedirect (err : string).

(** [redirectBehavior] for a request without a body. *)
Definition shouldRedirect (code : Z) : bool :=
  (code =? 301) || (code =? 302) || (code =? 303) || (code =? 307) || (code =? 308).

(** [http.Client.do] for one [Head] or [Get] call: [send] is the transport
    for the call's method, [via] the number of requests already made.  Each
    request uses one unit of [fuel]; [None] is the loop still running when
    the fuel is spent.  A 3xx answer without [Location] is returned as it is
    (Go 1.22, 1.23: the versions the project builds with); a [Location] that
    does not parse is an error of the call. *)
Fixpoint client_do (fuel : nat) (policy : nat -> RedirectVerdict)
    (send : string -> result Response) (url : string) (via : nat)
    : option (result Response) :=
  match fuel with
  | O => None
  | S fuel' =>
      match send url with
      | Err e => Some (Err e)
      | Ok resp =>
          if shouldRedirect (RespStatusCode resp) then
            match RespLocation resp with
            | None => Some (Ok resp)
            | Some (Err e) => Some (Err e)
            | Some (Ok loc) =>
                match policy (S via) with
                | UseLastResponse => Some (Ok resp)
                | RefuseRedirect e => Some (Err e)
                | FollowRedirect => client_do fuel' policy send loc (S via)
                end
            end
          else Some (Ok resp)
      end
  end.

(** ** net/http: the client's errors *)

Definition dquote : ascii := "034"%char.

(** [urlErrorOp]: the operation an error of the client names, the method
    with only its first letter in upper case. *)
Definition urlErrorOp (m : Method) : string :=
  match m with HEAD => "Head" | GET => "Get" end.

(** The text of the [*url.Error] the client returns when a request fails
    with the error [err]: the operation, the request's URL between double
    quotes ([shown]: a URL's text needs no escape there), and [err]. *)
Definition urlError (m : Method) (shown err : string) : string :=
  urlErrorOp m +:+ " " +:+ String dquote (shown +:+ String dquote (": " +:+ err)).

(** The error of a request that [Client.Timeout] has cut short while the
    answer's headers were awaited: the client adds its note to the error
    [err] of the transport, which is "context deadline exceeded" with Go
    1.22 and 1.23.  The [Timeout()] method of this error returns true. *)
Definition clientTimeout (m : Method) (shown err : string) : string :=
  urlError m shown (err +:+ " (Client.Timeout exceeded while awaiting headers)").

(** ** package validator *)

Module validator.

Record LinkStatus := {
  Link : string;
  Valid : bool;
  Reason : string;
  StatusCode : Z
}.

(** The [CheckRedirect] closure of [checkHTTP]: [len(via) >= 10]. *)
Definition CheckRedirect (via : nat) : RedirectVerdict :=
  if 10 <=? Z.of_nat via then UseLastResponse else FollowRedirect.

(** Requests one [Head] or [Get] call of [checkHTTP]'s client may make. *)
Definition requestBudget : nat := 10.

(** The tail of [checkHTTP], once a response is at hand. *)
Definition classifyResponse (resp : Response) : bool * string * Z :=
  if (200 <=? RespStatusCode resp) && (RespStatusCode resp <? 400)
  then (true, "", RespStatusCode resp)
  else (false, RespStatus resp, RespStatusCode resp).

(** [client.Head(url)] and [client.Get(url)] of [checkHTTP]'s client. *)
Definition client_Head (w : World) (timeout : Z) (url : string)
    : option (result Response) :=
  client_do requestBudget CheckRedirect (transport w timeout HEAD) url 0.
Definition client_Get (w : World) (timeout : Z) (url : string)
    : option (result Response) :=
  client_do requestBudget CheckRedirect (transport w timeout GET) url 0.

Definition checkHTTP (w : World) (url : string) (timeout : Z)
    : option (bool * string * Z) :=
  match client_Head w timeout url with
  | None => None
  | Some (Ok resp) => Some (classifyResponse resp)
  | Some (Err _) =>
      match client_Get w timeout url with
      | None => None
      | Some (Ok resp) => Some (classifyResponse resp)
      | Some (Err e) =>
          if Contains e "timeout"
          then Some (false, "Request timeout", 0)
          else Some (false, e, 0)
      end
  end.

Definition checkFile (w : World) (basePath relPath : string) : bool * string :=
  let fullPath :=
    if IsAbs w relPath then relPath else Join w basePath relPath in
  match Stat w fullPath with
  | Err e => (false, e)
  | Ok _ => (true, "")
  end.

(** The test of [worker]'s loop: the link goes to [checkHTTP]. *)
Definition isHTTP (link : string) : bool :=
  HasPrefix link "http://" || HasPrefix link "https://".

(** The body of [worker]'s loop: the status sent for one received link. *)
Definition checkLink (w : World) (basePath : string) (timeout : Z)
    (link : string) : option LinkStatus :=
  if isHTTP link then
    match checkHTTP w link timeout with
    | None => None
    | Some (ok, reason, statusCode) =>
        Some {| Link := link; Valid := ok; Reason := reason;
                StatusCode := statusCode |}
    end
  else
    let '(ok, reason) := checkFile w basePath link in
    Some {| Link := link; Valid := ok; Reason := reason; StatusCode := 0 |}.

(** The status [checkLink] returns for a link (it always returns one:
    [checkLink_returns] below). *)
Definition statusOf (w : World) (basePath : string) (timeout : Z)
    (link : string) : LinkStatus :=
  default {| Link := link; Valid := false; Reason := ""; StatusCode := 0 |}
    (checkLink w basePath timeout link).

(** The response to request number [k + 1] of a redirect chain that starts at
    [url]: the [k] responses before it were redirects with a [Location]. *)
Fixpoint nth_response (send : string → result Response) (url : string)
    (k : nat) : option Response :=
  match send url with
  | Err _ => None
  | Ok resp =>
      match k with
      | O => Some resp
      | S k' =>
          if shouldRedirect (RespStatusCode resp) then
            match RespLocation resp with
            | Some (Ok loc) => nth_response send loc k'
            | _ => None
            end
          else None
      end
  end.

(** *** The worker pool of [ValidateLinksAsync]

    The goroutines of one call are the actors of a transition system: [main]
    (the caller's goroutine), the sender ([go func] that fills and closes
    [linkChan]), the closer ([go func] that waits on the [WaitGroup] and
    closes [resultChan]) and the workers.  One transition is one operation on
    shared state: a channel send, receive or close, a [WaitGroup] operation, a
    [go] statement. *)

(** A buffered channel. *)
Record chan (A : Type) := {
  buf : list A;
  cap : nat;
  closed : bool
}.
Arguments buf {A} c.
Arguments cap {A} c.
Arguments closed {A} c.

Definition make_chan {A : Type} (n : nat) : chan A :=
  {| buf := []; cap := n; closed := false |}.
Definition chan_push {A : Type} (c : chan A) (x : A) : chan A :=
  {| buf := buf c ++ [x]; cap := cap c; closed := closed c |}.
Definition chan_pop {A : Type} (c : chan A) : chan A :=
  {| buf := tail (buf c); cap := cap c; closed := closed c |}.
Definition chan_close {A : Type} (c : chan A) : chan A :=
  {| buf := buf c; cap := cap c; closed := true |}.
(** A send on an open channel goes through when the buffer has room. *)
Definition chan_has_room {A : Type} (c : chan A) : bool :=
  (length (buf c) <? cap c)%nat.

(** Where a worker stands: at [for link := range linkChan], at
    [resultChan <- status] with the status it computed, or returned. *)
Inductive WorkerPc :=
| WRecv
| WSend (status : LinkStatus)
| WDone.

(** The sender: not started, in its loop with the links still to send, or
    past [close(linkChan)]. *)
Inductive SenderPc :=
| SIdle
| SSending (rest : list string)
| SDone.

(** The closer: not started, at [wg.Wait()], or past [close(resultChan)]. *)
Inductive CloserPc :=
| CIdle
| CWaiting
| CDone.

(** [main]: in the spawn loop with its counter, at the two [go func]
    statements, in the collecting loop, returned. *)
Inductive MainPc :=
| MSpawn (i : Z)
| MGoSender
| MGoCloser
| MCollect
| MReturned.

Record Pool := {
  linkChan : chan string;
  resultChan : chan LinkStatus;
  wg : Z;
  workers : list WorkerPc;
  sender : SenderPc;
  closer : CloserPc;
  main : MainPc;
  results : list LinkStatus;
  (** a send on a closed channel happened: the process is gone *)
  panicked : bool
}.

Definition set_linkChan (c : chan string) (s : Pool) : Pool :=
  {| linkChan := c; resultChan := resultChan s; wg := wg s;
     workers := workers s; sender := sender s; closer := closer s;
     main := main s; results := results s; panicked := panicked s |}.
Definition set_resultChan (c : chan LinkStatus) (s : Pool) : Pool :=
  {| linkChan := linkChan s; resultChan := c; wg := wg s;
     workers := workers s; sender := sender s; closer := closer s;
     main := main s; results := results s; panicked := panicked s |}.
Definition set_wg (n : Z) (s : Pool) : Pool :=
  {| linkChan := linkChan s; resultChan := resultChan s; wg := n;
     workers := workers s; sender := sender s; closer := closer s;
     main := main s; results := results s; panicked := panicked s |}.
Definition set_workers (ws : list WorkerPc) (s : Pool) : Pool :=
  {| linkChan := linkChan s; resultChan := resultChan s; wg := wg s;
     workers := ws; sender := sender s; closer := closer s;
     main := main s; results := results s; panicked := panicked s |}.
Definition set_sender (p : SenderPc) (s : Pool) : Pool :=
  {| linkChan := linkChan s; resultChan := resultChan s; wg := wg s;
     workers := workers s; sender := p; closer := closer s;
     main := main s; results := results s; panicked := panicked s |}.
Definition set_closer (p : CloserPc) (s : Pool) : Pool :=
  {| linkChan := linkChan s; resultChan := resultChan s; wg := wg s;
     workers := workers s; sender := sender s; closer := p;
     main := main s; results := results s; panicked := panicked s |}.
Definition set_main (p : MainPc) (s : Pool) : Pool :=
  {| linkChan := linkChan s; resultChan := resultChan s; wg := wg s;
     workers := workers s; sender := sender s; closer := closer s;
     main := p; results := results s; panicked := panicked s |}.
Definition set_results (rs : list LinkStatus) (s : Pool) : Pool :=
  {| linkChan := linkChan s; resultChan := resultChan s; wg := wg s;
     workers := workers s; sender := sender s; closer := closer s;
     main := main s; results := rs; panicked := panicked s |}.
Definition set_panicked (s : Pool) : Pool :=
  {| linkChan := linkChan s; resultChan := resultChan s; wg := wg s;
     workers := workers s; sender := sender s; closer := closer s;
     main := main s; results := results s; panicked := true |}.

Inductive Actor :=
| AMain
| ASender
| ACloser
| AWorker (i : nat).

Section pool.
(** The environment and the arguments of the call. *)
Variable w : World.
Variable links : list string.
Variable basePath : string.
Variable timeout : Z.
Variable maxWorkers : Z.

(** The state after the two [make(chan ..., len(links))], at the head of
    the spawn loop. *)
Definition pool_init : Pool :=
  {| linkChan := make_chan (length links);
     resultChan := make_chan (length links);
     wg := 0; workers := []; sender := SIdle; closer := CIdle;
     main := MSpawn 0; results := []; panicked := false |}.

Definition main_step (s : Pool) : option Pool :=
  match main s with
  | MSpawn i =>
      if i <? maxWorkers then
        (* wg.Add(1); go worker(...); i++ *)
        Some (set_main (MSpawn (i + 1))
                (set_workers (workers s ++ [WRecv]) (set_wg (wg s + 1) s)))
      else Some (set_main MGoSender s)
  | MGoSender => Some (set_main MGoCloser (set_sender (SSending links) s))
  | MGoCloser => Some (set_main MCollect (set_closer CWaiting s))
  | MCollect =>
      (* for result := range resultChan { results = append(results, result) } *)
      match buf (resultChan s) with
      | r :: _ =>
          Some (set_results (results s ++ [r])
                  (set_resultChan (chan_pop (resultChan s)) s))
      | [] => if closed (resultChan s) then Some (set_main MReturned s) else None
      end
  | MReturned => None
  end.

Definition sender_step (s : Pool) : option Pool :=
  match sender s with
  | SSending (link :: rest) =>
      if chan_has_room (linkChan s) then
        Some (set_sender (SSending rest)
                (set_linkChan (chan_push (linkChan s) link) s))
      else None
  | SSending [] => Some (set_sender SDone (set_linkChan (chan_close (linkChan s)) s))
  | SIdle | SDone => None
  end.

Definition closer_step (s : Pool) : option Pool :=
  match closer s with
  | CWaiting =>
      if wg s =? 0 then
        Some (set_closer CDone (set_resultChan (chan_close (resultChan s)) s))
      else None
  | CIdle | CDone => None
  end.

Definition worker_step (i : nat) (s : Pool) : option Pool :=
  match workers s !! i with
  | Some WRecv =>
      match buf (linkChan s) with
      | link :: _ =>
          match checkLink w basePath timeout link with
          | Some status =>
              Some (set_workers (<[i := WSend status]> (workers s))
                      (set_linkChan (chan_pop (linkChan s)) s))
          | None => None
          end
      | [] =>
          if closed (linkChan s) then
            (* the loop ends; the deferred wg.Done() runs *)
            Some (set_workers (<[i := WDone]> (workers s)) (set_wg (wg s - 1) s))
          else None
      end
  | Some (WSend status) =>
      if closed (resultChan s) then Some (set_panicked s)
      else if chan_has_room (resultChan s) then
        Some (set_workers (<[i := WRecv]> (workers s))
                (set_resultChan (chan_push (resultChan s) status) s))
      else None
  | Some WDone | None => None
  end.

(** What actor [a] does next in [s]; [None] when it is blocked or gone. *)
Definition step_of (a : Actor) (s : Pool) : option Pool :=
  if panicked s then None else
  match a with
  | AMain => main_step s
  | ASender => sender_step s
  | ACloser => closer_step s
  | AWorker i => worker_step i s
  end.

Definition step (s s' : Pool) : Prop := ∃ a, step_of a s = Some s'.

(** [ValidateLinksAsync(links, basePath, timeout, maxWorkers)] may return
    [rs]: at once for an empty input, otherwise through a run of the pool
    that brings [main] to its [return]. *)
Inductive ValidateLinksAsync : list LinkStatus → Prop :=
| Validate_nothing : links = [] → ValidateLinksAsync []
| Validate_pool s :
    links ≠ [] → rtc step pool_init s → main s = MReturned →
    ValidateLinksAsync (results s).

(** One scheduler, for running the pool: the first actor that can move,
    among main, sender, closer and the workers in spawn order. *)
Definition actors (s : Pool) : list Actor :=
  [AMain; ASender; ACloser] ++ (AWorker <$> seq 0 (length (workers s))).

Fixpoint first_step (l : list Actor) (s : Pool) : option Pool :=
  match l with
  | [] => None
  | a :: l' =>
      match step_of a s with
      | Some s' => Some s'
      | None => first_step l' s
      end
  end.

Fixpoint run (fuel : nat) (s : Pool) : Pool :=
  match fuel with
  | O => s
  | S fuel' =>
      match first_step (actors s) s with
      | Some s' => run fuel' s'
      | None => s
      end
  end.

(** The statuses a worker holds between its receive and its send. *)
Definition held (ws : list WorkerPc) : list LinkStatus :=
  omap (λ p, match p with WSend st => Some st | _ => None end) ws.

(** The workers that have not returned. *)
Definition is_active (p : WorkerPc) : bool :=
  match p with WDone => false | _ => true end.
Definition active (ws : list WorkerPc) : list WorkerPc :=
  filter (λ p, is_active p) ws.

(** The links the sender has not put on [linkChan] yet. *)
Definition pending (p : SenderPc) : list string :=
  match p with
  | SIdle => links
  | SSending rest => rest
  | SDone => []
  end.

(** A bound on the transitions left: every transition lowers it. *)
Definition main_left (p : MainPc) : Z :=
  match p with
  | MSpawn i => 2 * Z.max 0 (maxWorkers - i) + 4
  | MGoSender => 3
  | MGoCloser => 2
  | MCollect => 1
  | MReturned => 0
  end.

Definition closer_left (p : CloserPc) : Z :=
  match p with CDone => 0 | _ => 1 end.

Definition sender_left (p : SenderPc) : Z :=
  match p with
  | SDone => 0
  | _ => 4 * Z.of_nat (length (pending p)) + 1
  end.

Definition steps_left (s : Pool) : Z :=
  main_left (main s) + sender_left (sender s) + closer_left (closer s)
  + 3 * Z.of_nat (length (buf (linkChan s)))
  + 2 * Z.of_nat (length (held (workers s)))
  + Z.of_nat (length (buf (resultChan s)))
  + Z.of_nat (length (active (workers s)))
  + (if panicked s then 0 else 1).

(** What holds of every state a call goes through. *)
Definition main_inv (s : Pool) : Prop :=
  match main s with
  | MSpawn i =>
      0 ≤ i ≤ Z.max 0 maxWorkers ∧ Z.of_nat (length (workers s)) = i
      ∧ sender s = SIdle ∧ closer s = CIdle
  | MGoSender =>
      Z.of_nat (length (workers s)) = Z.max 0 maxWorkers
      ∧ sender s = SIdle ∧ closer s = CIdle
  | MGoCloser =>
      Z.of_nat (length (workers s)) = Z.max 0 maxWorkers
      ∧ sender s ≠ SIdle ∧ closer s = CIdle
  | MCollect =>
      Z.of_nat (length (workers s)) = Z.max 0 maxWorkers
      ∧ sender s ≠ SIdle ∧ closer s ≠ CIdle
  | MReturned =>
      Z.of_nat (length (workers s)) = Z.max 0 maxWorkers
      ∧ sender s ≠ SIdle ∧ closer s = CDone ∧ buf (resultChan s) = []
  end.

Record pool_inv (s : Pool) : Prop := {
  inv_panicked : panicked s = false;
  inv_link_cap : cap (linkChan s) = length links;
  inv_result_cap : cap (resultChan s) = length links;
  (** every link is in exactly one place: still to send, on [linkChan],
      checked and held by a worker, on [resultChan], or collected *)
  inv_conserved :
    results s ++ buf (resultChan s) ++ held (workers s)
      ++ (statusOf w basePath timeout <$> (buf (linkChan s) ++ pending (sender s)))
    ≡ₚ statusOf w basePath timeout <$> links;
  inv_wg : wg s = Z.of_nat (length (active (workers s)));
  inv_main : main_inv s;
  inv_link_closed :
    closed (linkChan s) = match sender s with SDone => true | _ => false end;
  inv_result_closed :
    closed (resultChan s) = match closer s with CDone => true | _ => false end;
  inv_closer_done : closer s = CDone → active (workers s) = [];
  inv_returned :
    ∀ i, workers s !! i = Some WDone →
         sender s = SDone ∧ buf (linkChan s) = [];
  inv_no_workers :
    workers s = [] → results s = [] ∧ buf (resultChan s) = []
}.
End pool.

(** The run of the pool under the scheduler [run], with fuel for every
    transition the call can make. *)
Definition ValidateLinksAsync_run (w : World) (links : list string)
    (basePath : string) (timeout maxWorkers : Z) : option (list LinkStatus) :=
  match links with
  | [] => Some []
  | _ =>
      let s0 := pool_init links in
      let s := run w links basePath timeout maxWorkers
                 (Z.to_nat (steps_left links maxWorkers s0)) s0 in
      match main s with
      | MReturned => Some (results s)
      | _ => None
      end
  end.

(** [ValidateLinksWithTimeout]: the pool with its default of 10 workers. *)
Definition ValidateLinksWithTimeout (w : World) (links : list string)
    (basePath : string) (timeout : Z) : list LinkStatus → Prop :=
  ValidateLinksAsync w links basePath timeout 10.

(** [ValidateLinks]: the default timeout, [30*time.Second] in nanoseconds. *)
Definition ValidateLinks (w : World) (links : list string) (basePath : string)
    : list LinkStatus → Prop :=
  ValidateLinksWithTimeout w links basePath (30 * 1000000000).

(** The pool under a given schedule: the actors move in the order listed;
    [None] when the actor whose turn it is cannot move. *)
Fixpoint run_schedule (w : World) (links : list string) (basePath : string)
    (timeout maxWorkers : Z) (schedule : list Actor) (s : Pool) : option Pool :=
  match schedule with
  | [] => Some s
  | a :: rest =>
      match step_of w links basePath timeout maxWorkers a s with
      | Some s' => run_schedule w links basePath timeout maxWorkers rest s'
      | None => None
      end
  end.

(** A schedule for two links and two workers in which the second link's
    status is sent first. *)
Definition swap_schedule : list Actor :=
  [AMain; AMain; AMain; AMain; AMain;
   ASender; ASender; ASender;
   AWorker 0; AWorker 1; AWorker 1; AWorker 0;
   AWorker 0; AWorker 1; ACloser;
   AMain; AMain; AMain].

End validator.

(** ** package cli *)

Module cli.

(** *** Go library functions of [compileIgnorePatterns]

    Strings are byte sequences; the characters looked for are ASCII, so
    working on bytes is exact. *)

(** [strings.ReplaceAll(s, old, new)] for a one-byte [old]. *)
Fixpoint ReplaceAll (s : string) (old : ascii) (new : string) : string :=
  match s with
  | EmptyString => EmptyString
  | String c rest =>
      if Ascii.eqb c old then new +:+ ReplaceAll rest old new
      else String c (ReplaceAll rest old new)
  end.

Fixpoint has_byte (chars : string) (c : ascii) : bool :=
  match chars with
  | EmptyString => false
  | String d rest => Ascii.eqb c d || has_byte rest c
  end.

(** [strings.ContainsAny(s, chars)]. *)
Fixpoint ContainsAny (s chars : string) : bool :=
  match s with
  | EmptyString => false
  | String c rest => has_byte chars c || ContainsAny rest chars
  end.

(** [regexp.QuoteMeta]. *)
Fixpoint QuoteMeta (s : string) : string :=
  match s with
  | EmptyString => EmptyString
  | String c rest =>
      if has_byte "\.+*?()|[]{}^$" c then String "\"%char (String c (QuoteMeta rest))
      else String c (QuoteMeta rest)
  end.

(** *** The data of the package *)

Record Config := {
  Recursive : bool;
  IgnoreList : list string;
  Timeout : Z;
  OnlyDead : bool;
  Format : string;
  InputPaths : list string;
  InputURLs : list string;
  (** each compiled expression, as its [MatchString] *)
  IgnoreRegex : list (string → bool);
  Workers : Z;
  Debug : bool
}.

Definition set_inputs (paths urls : list string) (c : Config) : Config :=
  {| Recursive := Recursive c; IgnoreList := IgnoreList c; Timeout := Timeout c;
     OnlyDead := OnlyDead c; Format := Format c; InputPaths := paths;
     InputURLs := urls; IgnoreRegex := IgnoreRegex c; Workers := Workers c;
     Debug := Debug c |}.
Definition set_IgnoreRegex (rs : list (string → bool)) (c : Config) : Config :=
  {| Recursive := Recursive c; IgnoreList := IgnoreList c; Timeout := Timeout c;
     OnlyDead := OnlyDead c; Format := Format c; InputPaths := InputPaths c;
     InputURLs := InputURLs c; IgnoreRegex := rs; Workers := Workers c;
     Debug := Debug c |}.

Record Result := {
  URL : string;
  Status : string;
  StatusCode : Z;
  Error : string;
  Source : string;
  Line : Z
}.

(** [Output]: the summary fields and the results. *)
Record Output := {
  Total : Z;
  Valid : Z;
  Invalid : Z;
  Duration : string;
  Results : list Result
}.

(** The flag defaults of [init] (the positional arguments are not flags). *)
Definition default_config : Config :=
  {| Recursive := false; IgnoreList := []; Timeout := 30 * 1000000000;
     OnlyDead := false; Format := "text"; InputPaths := []; InputURLs := [];
     IgnoreRegex := []; Workers := 10; Debug := false |}.

(** *** The functions *)

Definition isURL (w : World) (input : string) : bool :=
  match Parse w input with
  | Err _ => false
  | Ok u => negb (String.eqb (Scheme u) "") && negb (String.eqb (Host u) "")
  end.

(** The expression [compileIgnorePatterns] compiles for one pattern. *)
Definition regexPattern (pattern : string) : string :=
  if negb (ContainsAny pattern ".*+?^${}[]|()\")
  then ".*" +:+ QuoteMeta pattern +:+ ".*"
  else ReplaceAll (ReplaceAll pattern "*"%char ".*") "?"%char ".".

Fixpoint compilePatterns (w : World) (patterns : list string)
    (acc : list (string → bool)) : result (list (string → bool)) :=
  match patterns with
  | [] => Ok acc
  | pattern :: rest =>
      match Compile w (regexPattern pattern) with
      | Err e => Err ("invalid ignore pattern '" +:+ pattern +:+ "': " +:+ e)
      | Ok regex => compilePatterns w rest (acc ++ [regex])
      end
  end.

(** [compileIgnorePatterns]: the new value of [config.IgnoreRegex]. *)
Definition compileIgnorePatterns (w : World) (config : Config)
    : result (list (string → bool)) :=
  compilePatterns w (IgnoreList config) [].

Definition IsURLIgnored (config : Config) (url : string) : bool :=
  existsb (λ regex, regex url) (IgnoreRegex config).

Definition isMarkdownFile (w : World) (path : string) : bool :=
  let ext := ToLower w (Ext w path) in
  String.eqb ext ".md" || String.eqb ext ".markdown".

(** The loop that turns the statuses of one document into results: the same
    in [processMarkdownFile] and [processURL]. *)
Definition toResult (source : string) (status : validator.LinkStatus) : Result :=
  if validator.Valid status then
    {| URL := validator.Link status; Source := source;
       Status := "valid"; StatusCode := validator.StatusCode status;
       Error := ""; Line := 0 |}
  else
    {| URL := validator.Link status; Source := source;
       Status := "invalid"; Error := validator.Reason status;
       StatusCode := validator.StatusCode status; Line := 0 |}.

(** A result built by [toResult] from some status. *)
Definition from_status (result : Result) : Prop :=
  ∃ source status, result = toResult source status.

(** The links [processMarkdownFile] hands to the pool. *)
Definition filterIgnored (config : Config) (links : list string) : list string :=
  filter (λ link, negb (IsURLIgnored config link)) links.

Inductive processMarkdownFile (w : World) (config : Config) (filePath : string)
    : result (list Result) → Prop :=
| markdown_unreadable e :
    ExtractLinksFromFile w filePath = Err e →
    processMarkdownFile w config filePath
      (Err ("error extracting links from " +:+ filePath +:+ ": " +:+ e))
| markdown_checked links linkStatuses :
    ExtractLinksFromFile w filePath = Ok links →
    validator.ValidateLinksAsync w (filterIgnored config links)
      (Dir w filePath) (Timeout config) (Workers config) linkStatuses →
    processMarkdownFile w config filePath
      (Ok (toResult filePath <$> linkStatuses)).

(** The first test of [processURL]'s loop over the page's links. *)
Definition skipLink (link : string) : bool :=
  String.eqb link "" || HasPrefix link "#" || HasPrefix link "javascript:"
  || HasPrefix link "mailto:" || HasPrefix link "tel:".

(** One round of that loop: what it appends to [absoluteLinks]. *)
Definition absoluteLink (w : World) (baseURL : ParsedURL) (link : string)
    : option string :=
  if skipLink link then None
  else
    match Parse w link with
    | Err _ => None
    | Ok linkURL =>
        let absoluteURL := ResolveReference w baseURL linkURL in
        if String.eqb (Scheme absoluteURL) "http"
           || String.eqb (Scheme absoluteURL) "https"
        then Some (URLString absoluteURL)
        else None
    end.

Definition absoluteLinks (w : World) (baseURL : ParsedURL) (links : list string)
    : list string :=
  omap (absoluteLink w baseURL) links.

Inductive processURL (w : World) (config : Config) (inputURL : string)
    : result (list Result) → Prop :=
| url_unreachable e :
    FetchPage w (Timeout config) inputURL = Err e →
    processURL w config inputURL
      (Err ("error fetching URL " +:+ inputURL +:+ ": " +:+ e))
| url_unreadable e :
    FetchPage w (Timeout config) inputURL = Ok (Err e) →
    processURL w config inputURL
      (Err ("error reading response from " +:+ inputURL +:+ ": " +:+ e))
| url_unparsable content e :
    FetchPage w (Timeout config) inputURL = Ok (Ok content) →
    Parse w inputURL = Err e →
    processURL w config inputURL
      (Err ("error parsing base URL " +:+ inputURL +:+ ": " +:+ e))
| url_checked content baseURL linkStatuses :
    FetchPage w (Timeout config) inputURL = Ok (Ok content) →
    Parse w inputURL = Ok baseURL →
    validator.ValidateLinksAsync w
      (filterIgnored config
         (absoluteLinks w baseURL (ExtractLinksFromHTML w content)))
      "" (Timeout config) (Workers config) linkStatuses →
    processURL w config inputURL (Ok (toResult inputURL <$> linkStatuses)).

(** A loop that appends to [results] what [process] returns for each item
    and returns at the first error, which [wrap] words. *)
Inductive gather {A : Type} (process : A → result (list Result) → Prop)
    (wrap : A → string → string)
    : list Result → list A → result (list Result) → Prop :=
| gather_end results : gather process wrap results [] (Ok results)
| gather_error results x xs e :
    process x (Err e) →
    gather process wrap results (x :: xs) (Err (wrap x e))
| gather_next results x xs rs r :
    process x (Ok rs) →
    gather process wrap (results ++ rs) xs r →
    gather process wrap results (x :: xs) r.

(** The callback [processPath] gives to [filepath.Walk], on one entry. *)
Inductive walkFn (w : World) (config : Config) (entry : WalkEntry)
    : result (list Result) → Prop :=
| walk_failed e : WalkInfo entry = Err e → walkFn w config entry (Err e)
| walk_markdown info r :
    WalkInfo entry = Ok info →
    negb (IsDir info) && isMarkdownFile w (WalkPath entry) = true →
    processMarkdownFile w config (WalkPath entry) r →
    walkFn w config entry r
| walk_other info :
    WalkInfo entry = Ok info →
    negb (IsDir info) && isMarkdownFile w (WalkPath entry) = false →
    walkFn w config entry (Ok []).

Inductive processPath (w : World) (config : Config) (inputPath : string)
    : result (list Result) → Prop :=
| path_missing e :
    Stat w inputPath = Err e →
    processPath w config inputPath (Err ("path does not exist: " +:+ inputPath))
| path_directory info r :
    Stat w inputPath = Ok info → IsDir info = true →
    gather (walkFn w config) (λ _ e, e) [] (WalkEntries w inputPath) r →
    processPath w config inputPath r
| path_markdown info r :
    Stat w inputPath = Ok info → IsDir info = false →
    isMarkdownFile w inputPath = true →
    processMarkdownFile w config inputPath r →
    processPath w config inputPath r
| path_other info :
    Stat w inputPath = Ok info → IsDir info = false →
    isMarkdownFile w inputPath = false →
    processPath w config inputPath (Ok []).

(** The only-dead filter of [runRealLinkChecker]. *)
Definition onlyDead (results : list Result) : list Result :=
  filter (λ result, String.eqb (Status result) "invalid") results.

(** The summary loop: the number of results with status "valid", and of the
    others. *)
Fixpoint countValid (results : list Result) : Z * Z :=
  match results with
  | [] => (0, 0)
  | result :: rest =>
      let '(valid, invalid) := countValid rest in
      if String.eqb (Status result) "valid" then (valid + 1, invalid)
      else (valid, invalid + 1)
  end.

(** [runRealLinkChecker] from the filter to the summary: the output handed
    to [outputJSON] or [outputText] ([duration] is the text of
    [time.Since(start)]). *)
Definition report (config : Config) (results : list Result) (duration : string)
    : Output :=
  let results := if OnlyDead config then onlyDead results else results in
  let '(valid, invalid) := countValid results in
  {| Results := results; Total := Z.of_nat (length results);
     Valid := valid; Invalid := invalid; Duration := duration |}.

(** [outputJSON] returns what [encoder.Encode] returns, which writes the
    output to [os.Stdout]: [nil], or the error of the write.  Neither the
    configuration nor the files and servers of the run decide which, so
    both are outcomes. *)
Inductive outputJSON (output : Output) : result unit → Prop :=
| json_written : outputJSON output (Ok ())
| json_error e : outputJSON output (Err e).

(** [outputText] prints with [fmt.Printf], whose errors it drops, and
    returns [nil] (what it prints is not modelled, but for [sourceGroups]
    below). *)
Definition outputText (output : Output) : result unit := Ok ().

(** [Ok output]: the call returned [nil], having written [output];
    [Err e]: the call returned the error [e]. *)
Inductive runRealLinkChecker (w : World) (config : Config)
    : result Output → Prop :=
| run_path_error e :
    gather (processPath w config)
      (λ inputPath e, "error processing path '" +:+ inputPath +:+ "': " +:+ e)
      [] (InputPaths config) (Err e) →
    runRealLinkChecker w config (Err e)
| run_url_error fileResults e :
    gather (processPath w config)
      (λ inputPath e, "error processing path '" +:+ inputPath +:+ "': " +:+ e)
      [] (InputPaths config) (Ok fileResults) →
    gather (processURL w config)
      (λ inputURL e, "error processing URL '" +:+ inputURL +:+ "': " +:+ e)
      fileResults (InputURLs config) (Err e) →
    runRealLinkChecker w config (Err e)
| run_output_error fileResults results duration e :
    gather (processPath w config)
      (λ inputPath e, "error processing path '" +:+ inputPath +:+ "': " +:+ e)
      [] (InputPaths config) (Ok fileResults) →
    gather (processURL w config)
      (λ inputURL e, "error processing URL '" +:+ inputURL +:+ "': " +:+ e)
      fileResults (InputURLs config) (Ok results) →
    Format config = "json" →
    outputJSON (report config results duration) (Err e) →
    runRealLinkChecker w config (Err e)
| run_output fileResults results duration :
    gather (processPath w config)
      (λ inputPath e, "error processing path '" +:+ inputPath +:+ "': " +:+ e)
      [] (InputPaths config) (Ok fileResults) →
    gather (processURL w config)
      (λ inputURL e, "error processing URL '" +:+ inputURL +:+ "': " +:+ e)
      fileResults (InputURLs config) (Ok results) →
    (if String.eqb (Format config) "json"
     then outputJSON (report config results duration) (Ok ())
     else outputText (report config results duration) = Ok ()) →
    runRealLinkChecker w config (Ok (report config results duration)).

(** [runLinkChecker]: [config] is the configuration the flags gave. *)
Definition withArgs (w : World) (args : list string) (config : Config) : Config :=
  match args with
  | [] => set_inputs ["."] (InputURLs config) config
  | _ =>
      set_inputs (filter (λ arg, negb (isURL w arg)) args)
        (filter (λ arg, isURL w arg) args) config
  end.

Inductive runLinkChecker (w : World) (config : Config) (args : list string)
    : result Output → Prop :=
| check_bad_format :
    String.eqb (Format config) "text" || String.eqb (Format config) "json" = false →
    runLinkChecker w config args
      (Err ("invalid format '" +:+ Format config +:+ "': must be 'text' or 'json'"))
| check_bad_pattern e :
    String.eqb (Format config) "text" || String.eqb (Format config) "json" = true →
    compileIgnorePatterns w config = Err e →
    runLinkChecker w config args (Err ("error compiling ignore patterns: " +:+ e))
| check_run regexes r :
    String.eqb (Format config) "text" || String.eqb (Format config) "json" = true →
    compileIgnorePatterns w config = Ok regexes →
    runRealLinkChecker w (set_IgnoreRegex regexes (withArgs w args config)) r →
    runLinkChecker w config args r.

Definition set_Recursive (b : bool) (c : Config) : Config :=
  {| Recursive := b; IgnoreList := IgnoreList c; Timeout := Timeout c;
     OnlyDead := OnlyDead c; Format := Format c; InputPaths := InputPaths c;
     InputURLs := InputURLs c; IgnoreRegex := IgnoreRegex c;
     Workers := Workers c; Debug := Debug c |}.

(** The first loop of [outputText]: the results grouped by source, in a Go
    map ([append] to a missing key starts from the empty slice). *)
Definition sourceGroups (results : list Result) : gmap string (list Result) :=
  foldl (λ groups result,
           <[Source result :=
               default [] (groups !! Source result) ++ [result]]> groups)
    ∅ results.

End cli.

(** ** package parser *)

Module parser.

(** [html.NodeType]. *)
Inductive NodeType :=
| ErrorNode
| TextNode
| DocumentNode
| ElementNode
| CommentNode
| DoctypeNode
| RawNode.

(** [html.Attribute]. *)
Record Attribute := {
  Key : string;
  Val : string
}.

(** [*html.Node]: the node with its children, first to last. *)
#[local] Unset Elimination Schemes.
Inductive Node :=
| mkNode (Type_ : NodeType) (Data : string) (Attr : list Attribute)
    (children : list Node).
#[local] Set Elimination Schemes.

Definition Type_ (n : Node) : NodeType := let 'mkNode t _ _ _ := n in t.
Definition Data (n : Node) : string := let 'mkNode _ d _ _ := n in d.
Definition Attr (n : Node) : list Attribute := let 'mkNode _ _ a _ := n in a.
Definition children (n : Node) : list Node := let 'mkNode _ _ _ c := n in c.

Definition isElement (t : NodeType) : bool :=
  match t with ElementNode => true | _ => false end.

(** What the closure [f] of [ExtractLinksFromHTML] appends at one node: the
    value of every [href] attribute of an [a] element. *)
Definition hrefs (n : Node) : list string :=
  if isElement (Type_ n) && String.eqb (Data n) "a" then
    omap (λ attr, if String.eqb (Key attr) "href" then Some (Val attr) else None)
      (Attr n)
  else [].

(** The closure [f]: the node itself, then its children in order. *)
Fixpoint walk (n : Node) : list string :=
  match n with
  | mkNode t d a cs => hrefs (mkNode t d a cs) ++ flat_map walk cs
  end.

(** [ExtractLinksFromHTML], over the result of [html.Parse]: a document that
    does not parse has no links. *)
Definition ExtractLinksFromHTML (parse : string → result Node)
    (content : string) : list string :=
  match parse content with
  | Err _ => []
  | Ok doc => walk doc
  end.

(** [ExtractLinksFromHTMLFile]: [read] is [os.Open] with [io.ReadAll]. *)
Definition ExtractLinksFromHTMLFile (read : string → result string)
    (parse : string → result Node) (path : string) : result (list string) :=
  match read path with
  | Err e => Err e
  | Ok content => Ok (ExtractLinksFromHTML parse content)
  end.

(** [n] is [root] or one of its descendants. *)
Inductive in_tree (n : Node) : Node → Prop :=
| in_tree_here : in_tree n n
| in_tree_child root child :
    child ∈ children root → in_tree n child → in_tree n root.

(** The nodes of a goldmark AST, by what the type assertion of
    [ExtractLinks] tells apart: an [*ast.Link], with its destination, or a
    node of any other type (text, image, autolink, ...). *)
#[local] Unset Elimination Schemes.
Inductive AstNode :=
| Link (Destination : string) (kids : list AstNode)
| Other (kids : list AstNode).
#[local] Set Elimination Schemes.

Definition kids (n : AstNode) : list AstNode :=
  match n with Link _ ks => ks | Other ks => ks end.

(** [ast.Walk] with the callback of [ExtractLinks]: the callback sees a node
    on entering it, before its children, and again on leaving it, and
    appends the destination of a link on entering only. *)
Fixpoint walkAst (n : AstNode) : list string :=
  match n with
  | Link destination ks => destination :: flat_map walkAst ks
  | Other ks => flat_map walkAst ks
  end.

(** [ExtractLinks], over the document [md.Parser().Parse] builds. *)
Definition ExtractLinks (parse : string → AstNode) (content : string)
    : list string :=
  walkAst (parse content).

(** [ExtractLinksFromFile]: [read] is [os.Open] with [io.ReadAll]. *)
Definition ExtractLinksFromFile (read : string → result string)
    (parse : string → AstNode) (path : string) : result (list string) :=
  match read path with
  | Err e => Err e
  | Ok content => Ok (ExtractLinks parse content)
  end.

Inductive in_ast (n : AstNode) : AstNode → Prop :=
| in_ast_here : in_ast n n
| in_ast_child root child :
    child ∈ kids root → in_ast n child → in_ast n root.

End parser.

(** ** Sample environments

    Small concrete worlds on which the definitions run: a Unix-like file
    system holding the listed files, documents with their links, and servers
    given by their answers. *)

Module sample.

Fixpoint lookup_doc {A : Type} (key : string) (table : list (string * A))
    : option A :=
  match table with
  | [] => None
  | (k, v) :: rest => if String.eqb k key then Some v else lookup_doc key rest
  end.

(** The part of a path before its last slash, when it has one. *)
Fixpoint before_last_slash (s : string) : option string :=
  match s with
  | EmptyString => None
  | String c rest =>
      match before_last_slash rest with
      | Some d => Some (String c d)
      | None => if Ascii.eqb c "/" then Some EmptyString else None
      end
  end.

Definition dir (path : string) : string :=
  match before_last_slash path with
  | Some EmptyString => "/"
  | Some d => d
  | None => "."
  end.

(** The extension of the last element, and whether a slash was met. *)
Fixpoint ext_scan (s : string) : string * bool :=
  match s with
  | EmptyString => (EmptyString, false)
  | String c rest =>
      let '(e, slash) := ext_scan rest in
      if Ascii.eqb c "/" then (e, true)
      else if negb (String.eqb e "") || slash then (e, slash)
      else if Ascii.eqb c "." then (String c rest, false)
      else (EmptyString, false)
  end.

Definition lower (c : ascii) : ascii :=
  let n := nat_of_ascii c in
  if ((65 <=? n) && (n <=? 90))%nat then ascii_of_nat (n + 32) else c.

Fixpoint to_lower (s : string) : string :=
  match s with
  | EmptyString => EmptyString
  | String c rest => String (lower c) (to_lower rest)
  end.

(** The words of a text: the sample pages list their [href]s, separated by
    spaces. *)
Fixpoint words (s : string) (word : string) : list string :=
  match s with
  | EmptyString => if String.eqb word "" then [] else [word]
  | String c rest =>
      if Ascii.eqb c " " then
        (if String.eqb word "" then [] else [word]) ++ words rest ""
      else words rest (word +:+ String c EmptyString)
  end.

Definition parse (u : string) : result ParsedURL :=
  let scheme :=
    if HasPrefix u "http://" then "http"
    else if HasPrefix u "https://" then "https"
    else if HasPrefix u "ftp://" then "ftp"
    else "" in
  Ok {| Scheme := scheme;
        Host := if String.eqb scheme "" then "" else "host";
        URLString := u |}.

Definition resolve (base ref : ParsedURL) : ParsedURL :=
  if String.eqb (Scheme ref) "" then
    {| Scheme := Scheme base; Host := Host base;
       URLString := URLString base +:+ "/" +:+ URLString ref |}
  else ref.

(** A world with the given server, files, markdown documents and pages. *)
Definition world (server : Method → string → result Response)
    (files : list string) (docs : list (string * list string))
    (pages : list (string * string)) : World :=
  {| transport := λ _ m u, server m u;
     Stat := λ p,
       if existsb (String.eqb p) files then Ok {| IsDir := false |}
       else Err ("stat " +:+ p +:+ ": no such file or directory");
     IsAbs := λ p, HasPrefix p "/";
     Join := λ a b, a +:+ "/" +:+ b;
     Dir := dir;
     Ext := λ p, fst (ext_scan p);
     ToLower := to_lower;
     WalkEntries := λ _, [];
     ExtractLinksFromFile := λ p,
       match lookup_doc p docs with
       | Some ls => Ok ls
       | None => Err ("open " +:+ p +:+ ": no such file or directory")
       end;
     ExtractLinksFromHTML := λ body, words body "";
     FetchPage := λ _ u,
       match lookup_doc u pages with
       | Some body => Ok (Ok body)
       | None => Err "dial tcp: connection refused"
       end;
     Parse := parse;
     ResolveReference := resolve;
     Compile := λ p, Ok (λ u, Contains u p) |}.

Definition response (code : Z) (status : string) : Response :=
  {| RespStatusCode := code; RespStatus := status; RespLocation := None |}.

(** A server that does not implement HEAD. *)
Definition head_unsupported (m : Method) (u : string) : result Response :=
  match m with
  | HEAD => Ok (response 405 "405 Method Not Allowed")
  | GET => Ok (response 200 "200 OK")
  end.

(** A server that accepts the connection and never answers: every request
    ends when the client's timeout elapses. *)
Definition stalled (m : Method) (u : string) : result Response :=
  Err (clientTimeout m u "context deadline exceeded").

(** No server: every connection is refused. *)
Definition refused (m : Method) (u : string) : result Response :=
  Err (urlError m u "dial tcp 127.0.0.1:80: connect: connection refused").

(** A server by path: found, not found, refusing connections, too slow. *)
Definition by_path (m : Method) (u : string) : result Response :=
  if String.eqb u "http://host/ok" then Ok (response 200 "200 OK")
  else if String.eqb u "http://host/notfound" then Ok (response 404 "404 Not Found")
  else if String.eqb u "http://host/slow" then Err "dial tcp: i/o timeout"
  else Err "dial tcp: connection refused".

(** A server whose page [http://host/] followed by [k] letters [r] redirects
    to the page with one more letter while [k < n], and is found after that:
    a chain of [n] redirects. *)
Definition redirect_chain (n : nat) (m : Method) (u : string)
    : result Response :=
  let k := (String.length u - 12)%nat in
  if (k <? n)%nat then
    Ok {| RespStatusCode := 302; RespStatus := "302 Found";
          RespLocation := Some (Ok (u +:+ "r")) |}
  else Ok (response 200 "200 OK").

(** /d holds test.md; /d/doc.md links to an anchor, a file and a page. *)
Definition docs_world : World :=
  world by_path ["/d/test.md"; "/d/doc.md"]
    [("/d/doc.md", ["#section"; "test.md"; "http://host/ok"])]
    [("http://host/page", "#top mailto:a@b.com http://host/ok notfound")].

(** /d/five.md has five links: two that hold and three that do not. *)
Definition five_links : list string :=
  ["test.md"; "http://host/ok"; "missing.md"; "http://host/notfound";
   "http://host/down"].

Definition five_world : World :=
  world by_path ["/d/test.md"; "/d/five.md"] [("/d/five.md", five_links)] [].

Definition config_for (paths urls : list string) (workers : Z) (dead : bool)
    : cli.Config :=
  {| cli.Recursive := false; cli.IgnoreList := []; cli.Timeout := 30 * 1000000000;
     cli.OnlyDead := dead; cli.Format := "text"; cli.InputPaths := paths;
     cli.InputURLs := urls; cli.IgnoreRegex := []; cli.Workers := workers;
     cli.Debug := false |}.

End sample.

(** * Properties *)

(** ** The HTTP check *)

Section http_facts.
Import validator.

Lemma CheckRedirect_follow via :
  (S via < 10)%nat → CheckRedirect (S via) = FollowRedirect.
Proof.
  intros Hlt. unfold CheckRedirect.
  destruct (Z.leb_spec 10 (Z.of_nat (S via))); [lia | done].
Qed.

Lemma CheckRedirect_cap via :
  (10 ≤ S via)%nat → CheckRedirect (S via) = UseLastResponse.
Proof.
  intros Hge. unfold CheckRedirect.
  destruct (Z.leb_spec 10 (Z.of_nat (S via))); [done | lia].
Qed.

(** The closure never refuses: it follows or hands back the last response. *)
Lemma CheckRedirect_cases via :
  CheckRedirect via = FollowRedirect ∧ (via < 10)%nat
  ∨ CheckRedirect via = UseLastResponse ∧ (10 ≤ via)%nat.
Proof.
  unfold CheckRedirect.
  destruct (Z.leb_spec 10 (Z.of_nat via)); [right | left]; split; auto; lia.
Qed.

(** With the closure of [checkHTTP], the redirect loop ends within the
    requests that are left before the tenth. *)
Lemma client_do_returns send fuel : ∀ url via,
  (1 ≤ fuel)%nat → (10 ≤ fuel + via)%nat →
  ∃ r, client_do fuel CheckRedirect send url via = Some r.
Proof.
  induction fuel as [|fuel IH]; intros url via Hpos Henough; [lia |].
  simpl. destruct (send url) as [resp | e]; [| eauto].
  destruct (shouldRedirect (RespStatusCode resp)); [| eauto].
  destruct (RespLocation resp) as [[loc | e] |]; [| eauto ..].
  destruct (CheckRedirect_cases (S via)) as [[-> Hlt] | [-> Hge]]; [| eauto].
  apply IH; lia.
Qed.

Lemma client_Head_returns w timeout url :
  ∃ r, client_Head w timeout url = Some r.
Proof. apply client_do_returns; unfold requestBudget; lia. Qed.

Lemma client_Get_returns w timeout url :
  ∃ r, client_Get w timeout url = Some r.
Proof. apply client_do_returns; unfold requestBudget; lia. Qed.

Lemma checkHTTP_returns w url timeout :
  ∃ r, checkHTTP w url timeout = Some r.
Proof.
  unfold checkHTTP.
  destruct (client_Head_returns w timeout url) as [[resp | e] ->]; [eauto |].
  destruct (client_Get_returns w timeout url) as [[resp | e'] ->]; [eauto |].
  destruct (Contains e' "timeout"); eauto.
Qed.

(** [checkLink] returns a status for every link. *)
Lemma checkLink_returns w basePath timeout link :
  checkLink w basePath timeout link = Some (statusOf w basePath timeout link).
Proof.
  unfold statusOf.
  assert (∃ st, checkLink w basePath timeout link = Some st) as [st ->]; [| done].
  unfold checkLink. destruct (isHTTP link).
  - destruct (checkHTTP_returns w link timeout) as [[[ok reason] code] ->]. eauto.
  - destruct (checkFile w basePath link). eauto.
Qed.

Lemma checkLink_Link w basePath timeout link st :
  checkLink w basePath timeout link = Some st → Link st = link.
Proof.
  unfold checkLink. destruct (isHTTP link).
  - destruct (checkHTTP w link timeout) as [[[ok reason] code] |]; [| done].
    by intros [= <-].
  - destruct (checkFile w basePath link). by intros [= <-].
Qed.

Lemma statusOf_Link w basePath timeout link :
  Link (statusOf w basePath timeout link) = link.
Proof. eapply checkLink_Link, checkLink_returns. Qed.

(** A chain whose first ten answers are redirects: the loop hands back the
    tenth answer, whatever request number it starts from. *)
Lemma client_do_capped send r loc : ∀ k fuel via url,
  nth_response send url k = Some r →
  shouldRedirect (RespStatusCode r) = true →
  RespLocation r = Some (Ok loc) →
  (via + k = 9)%nat → (k < fuel)%nat →
  client_do fuel CheckRedirect send url via = Some (Ok r).
Proof.
  induction k as [|k IH]; intros fuel via url Hnth Hred Hloc Hvia Hfuel;
    (destruct fuel as [|fuel]; [lia |]); simpl in *;
    destruct (send url) as [resp | e]; try done.
  - injection Hnth as ->. rewrite Hred, Hloc.
    by rewrite CheckRedirect_cap by lia.
  - destruct (shouldRedirect (RespStatusCode resp)); [| done].
    destruct (RespLocation resp) as [[loc' | e] |]; [| done ..].
    rewrite CheckRedirect_follow by lia.
    apply IH; auto; lia.
Qed.

Lemma classifyResponse_valid resp :
  200 ≤ RespStatusCode resp < 400 →
  classifyResponse resp = (true, "", RespStatusCode resp).
Proof.
  intros [Hlo Hhi]. unfold classifyResponse.
  destruct (Z.leb_spec 200 (RespStatusCode resp)); [| lia].
  destruct (Z.ltb_spec (RespStatusCode resp) 400); [done | lia].
Qed.

Lemma classifyResponse_invalid resp :
  RespStatusCode resp < 200 ∨ 400 ≤ RespStatusCode resp →
  classifyResponse resp = (false, RespStatus resp, RespStatusCode resp).
Proof.
  intros Hout. unfold classifyResponse.
  destruct (Z.leb_spec 200 (RespStatusCode resp));
    destruct (Z.ltb_spec (RespStatusCode resp) 400); simpl; auto; lia.
Qed.

Lemma shouldRedirect_3xx code :
  shouldRedirect code = true → 300 ≤ code < 400.
Proof. unfold shouldRedirect. intros H. lia. Qed.
End http_facts.

(** ** The worker pool *)

Section worker_lists.
Import validator.

(** Replacing the program point of worker [i] splits the list around it. *)
Lemma workers_split (ws : list WorkerPc) i p :
  ws !! i = Some p →
  ∃ before after,
    ws = before ++ p :: after ∧ ∀ q, <[i := q]> ws = before ++ q :: after.
Proof.
  intros Hi. exists (take i ws), (drop (S i) ws). split.
  - by rewrite take_drop_middle.
  - intros q. apply insert_take_drop. by eapply lookup_lt_Some.
Qed.

Lemma held_app ws1 ws2 : held (ws1 ++ ws2) = held ws1 ++ held ws2.
Proof. apply omap_app. Qed.

Lemma active_app ws1 ws2 : active (ws1 ++ ws2) = active ws1 ++ active ws2.
Proof. apply filter_app. Qed.

Lemma held_receive ws i st :
  ws !! i = Some WRecv → held (<[i := WSend st]> ws) ≡ₚ st :: held ws.
Proof.
  intros (before & after & -> & ->)%workers_split.
  rewrite !held_app. simpl. by rewrite Permutation_middle.
Qed.

Lemma held_send ws i st :
  ws !! i = Some (WSend st) → held ws ≡ₚ st :: held (<[i := WRecv]> ws).
Proof.
  intros (before & after & -> & ->)%workers_split.
  rewrite !held_app. simpl. by rewrite Permutation_middle.
Qed.

Lemma held_return ws i :
  ws !! i = Some WRecv → held (<[i := WDone]> ws) = held ws.
Proof.
  intros (before & after & -> & ->)%workers_split. by rewrite !held_app.
Qed.

Lemma active_receive ws i st :
  ws !! i = Some WRecv →
  length (active (<[i := WSend st]> ws)) = length (active ws).
Proof.
  intros (before & after & -> & ->)%workers_split.
  by rewrite !active_app, !length_app.
Qed.

Lemma active_send ws i st :
  ws !! i = Some (WSend st) →
  length (active (<[i := WRecv]> ws)) = length (active ws).
Proof.
  intros (before & after & -> & ->)%workers_split.
  by rewrite !active_app, !length_app.
Qed.

Lemma active_return ws i :
  ws !! i = Some WRecv →
  length (active ws) = S (length (active (<[i := WDone]> ws))).
Proof.
  intros (before & after & -> & ->)%workers_split.
  rewrite !active_app, !length_app. unfold active.
  rewrite !filter_cons. simpl. lia.
Qed.

(** No worker is active: all have returned. *)
Lemma active_nil ws i p : active ws = [] → ws !! i = Some p → p = WDone.
Proof.
  intros Hnone Hi. destruct p; try done.
  - assert (WRecv ∈ active ws) as Hin
      by (apply list_elem_of_filter; split; [done | by eapply list_elem_of_lookup_2]).
    rewrite Hnone in Hin. by apply not_elem_of_nil in Hin.
  - assert (WSend status ∈ active ws) as Hin
      by (apply list_elem_of_filter; split; [done | by eapply list_elem_of_lookup_2]).
    rewrite Hnone in Hin. by apply not_elem_of_nil in Hin.
Qed.

Lemma active_some ws :
  active ws ≠ [] → ∃ i p, ws !! i = Some p ∧ is_active p = true.
Proof.
  intros Hsome. destruct (active ws) as [|p rest] eqn:Hact; [done |].
  assert (p ∈ active ws) as Hin by (rewrite Hact; left).
  apply list_elem_of_filter in Hin as [Hp Hin].
  apply list_elem_of_lookup_1 in Hin as [i Hi].
  exists i, p. split; [done |]. by destruct (is_active p).
Qed.

Lemma held_nil ws : active ws = [] → held ws = [].
Proof.
  induction ws as [|p ws IH]; [done |]. unfold active. intros Hnone.
  destruct p; simpl in *.
  - by rewrite filter_cons_True in Hnone.
  - by rewrite filter_cons_True in Hnone.
  - rewrite filter_cons_False in Hnone by auto. by apply IH.
Qed.
End worker_lists.

Section pool_facts.
Import validator.
Variable w : World.
Variable links : list string.
Variable basePath : string.
Variables timeout maxWorkers : Z.

Local Abbreviation step := (validator.step w links basePath timeout maxWorkers).
Local Abbreviation step_of := (validator.step_of w links basePath timeout maxWorkers).
Local Abbreviation inv := (pool_inv w links basePath timeout maxWorkers).
Local Abbreviation status := (statusOf w basePath timeout).
Local Abbreviation remaining := (steps_left links maxWorkers).

Lemma pool_inv_init : inv (pool_init links).
Proof.
  split; simpl; try done. unfold main_inv. simpl. split_and!; auto; lia.
Qed.

Lemma pool_inv_main s s' :
  inv s → main_step links maxWorkers s = Some s' → inv s'.
Proof.
  intros [Hpanic Hlcap Hrcap Hcons Hwg Hmain Hlclosed Hrclosed Hcdone Hret Hnone].
  unfold main_step, main_inv in *.
  destruct (main s) as [i | | | |] eqn:Hpc.
  - (* the spawn loop *)
    destruct Hmain as (Hi & Hlen & Hsender & Hcloser).
    destruct (Z.ltb_spec i maxWorkers); intros [= <-];
      (split; simpl; try done);
      lazymatch goal with
      | |- _ ≡ₚ _ => by rewrite held_app, app_nil_r
      | |- _ = Z.of_nat _ => rewrite active_app, length_app; simpl; lia
      | |- main_inv _ _ =>
          unfold main_inv; simpl; rewrite ?length_app; simpl;
          split_and!; auto; lia
      | |- _ = CDone → _ => intros ?; congruence
      | |- ∀ _, _ !! _ = Some WDone → _ =>
          intros k Hk; apply lookup_app_Some in Hk as [Hk | [_ Hk]]; [eauto |];
          by apply list_lookup_singleton_Some in Hk as [_ ?]
      | |- _ = [] → _ => intros Hnil; by apply app_eq_nil in Hnil as [_ ?]
      end.
  - (* go sender *)
    destruct Hmain as (Hlen & Hsender & Hcloser). intros [= <-].
    split; simpl; try done;
      lazymatch goal with
      | |- _ ≡ₚ _ => by rewrite Hsender in Hcons
      | |- main_inv _ _ => unfold main_inv; simpl; split_and!; auto; congruence
      | |- closed _ = _ => by rewrite Hsender in Hlclosed
      | |- ∀ _, _ !! _ = Some WDone → _ =>
          intros k Hk; destruct (Hret k Hk) as [Hdone _]; congruence
      end.
  - (* go closer *)
    destruct Hmain as (Hlen & Hsender & Hcloser). intros [= <-].
    split; simpl; try done;
      lazymatch goal with
      | |- main_inv _ _ => unfold main_inv; simpl; split_and!; auto; congruence
      | |- closed _ = _ => by rewrite Hcloser in Hrclosed
      end.
  - (* the collecting loop *)
    destruct Hmain as (Hlen & Hsender & Hcloser).
    destruct (buf (resultChan s)) as [|r rest] eqn:Hbuf.
    + destruct (closed (resultChan s)) eqn:Hcl; intros [= <-].
      split; simpl; rewrite ?Hbuf; try done;
      lazymatch goal with
      | |- main_inv _ _ =>
          unfold main_inv; simpl; rewrite Hbuf; split_and!; auto;
          by destruct (closer s)
      | |- closed _ = _ => by rewrite Hcl
      end.
    + intros [= <-]. split; simpl; rewrite ?Hbuf; try done;
      lazymatch goal with
      | |- _ ≡ₚ _ => by rewrite <- Hcons, <- !app_assoc
      | |- main_inv _ _ => unfold main_inv; simpl; by rewrite Hpc
      | |- _ = [] → _ => intros Hws; by destruct (Hnone Hws)
      end.
  - done.
Qed.
(** [main_inv] looks at little of the state: the steps of the other
    goroutines keep it. *)
Lemma main_inv_frame s s' :
  main_inv maxWorkers s →
  main s' = main s →
  length (workers s') = length (workers s) →
  (sender s = SIdle ↔ sender s' = SIdle) →
  (closer s = CIdle ↔ closer s' = CIdle) →
  (closer s = CDone → closer s' = CDone) →
  (main s = MReturned → buf (resultChan s') = []) →
  main_inv maxWorkers s'.
Proof.
  unfold main_inv. intros Hinv -> -> Hsender Hidle Hdone Hbuf.
  destruct (main s); intuition (auto; congruence).
Qed.

Lemma pool_inv_sender s s' :
  inv s → sender_step s = Some s' → inv s'.
Proof.
  intros [Hpanic Hlcap Hrcap Hcons Hwg Hmain Hlclosed Hrclosed Hcdone Hret Hnone].
  unfold sender_step.
  destruct (sender s) as [|[|link rest]|] eqn:Hsender; try done.
  - (* close(linkChan) *)
    intros [= <-]. split; simpl; try done;
      lazymatch goal with
      | |- main_inv _ _ =>
          eapply main_inv_frame; [done | simpl; try done ..];
          [rewrite Hsender; split; discriminate
          | intros Hret'; unfold main_inv in Hmain; rewrite Hret' in Hmain;
            apply Hmain]
      | |- ∀ _, _ !! _ = Some WDone → _ =>
          intros k Hk; by destruct (Hret k Hk)
      end.
  - (* linkChan <- link *)
    destruct (chan_has_room (linkChan s)); intros [= <-].
    split; simpl; try done;
      lazymatch goal with
      | |- _ ≡ₚ _ => by rewrite <- (app_assoc _ [link])
      | |- main_inv _ _ =>
          eapply main_inv_frame; [done | simpl; try done ..];
          [rewrite Hsender; split; discriminate
          | intros Hret'; unfold main_inv in Hmain; rewrite Hret' in Hmain;
            apply Hmain]
      | |- ∀ _, _ !! _ = Some WDone → _ =>
          intros k Hk; by destruct (Hret k Hk)
      end.
Qed.

Lemma pool_inv_closer s s' :
  inv s → closer_step s = Some s' → inv s'.
Proof.
  intros [Hpanic Hlcap Hrcap Hcons Hwg Hmain Hlclosed Hrclosed Hcdone Hret Hnone].
  unfold closer_step.
  destruct (closer s) eqn:Hcloser; try done.
  destruct (Z.eqb_spec (wg s) 0) as [Hzero |]; intros [= <-].
  split; simpl; try done;
    lazymatch goal with
    | |- main_inv _ _ =>
        eapply main_inv_frame; [done | simpl; try done ..];
        [rewrite Hcloser; split; discriminate
        | intros Hret'; unfold main_inv in Hmain; rewrite Hret' in Hmain;
          apply Hmain]
    | |- _ = CDone → _ => intros _; apply length_zero_iff_nil; lia
    end.
Qed.

(** Once the closer has closed [resultChan], no worker is left to move. *)
Lemma closer_done_worker s i p :
  inv s → closer s = CDone → workers s !! i = Some p → p = WDone.
Proof. intros Hinv Hdone. by apply active_nil, Hinv. Qed.

Lemma pool_inv_worker i s s' :
  inv s → worker_step w basePath timeout i s = Some s' → inv s'.
Proof.
  intros Hinv.
  pose proof (λ p, closer_done_worker s i p Hinv) as Hgone.
  destruct Hinv
    as [Hpanic Hlcap Hrcap Hcons Hwg Hmain Hlclosed Hrclosed Hcdone Hret Hnone].
  unfold worker_step.
  destruct (workers s !! i) as [[|st|]|] eqn:Hi; try done.
  - destruct (buf (linkChan s)) as [|link rest] eqn:Hbuf.
    + (* the range loop ends: wg.Done() *)
      destruct (closed (linkChan s)) eqn:Hcl; intros [= <-].
      split; simpl; rewrite ?Hbuf; try done;
        lazymatch goal with
        | |- _ ≡ₚ _ =>
            by rewrite (held_return _ _ Hi)
        | |- _ = Z.of_nat _ => rewrite (active_return _ _ Hi) in Hwg; lia
        | |- main_inv _ _ =>
            eapply main_inv_frame; [done | simpl; try done ..];
            [by rewrite length_insert
            | intros Hret'; unfold main_inv in Hmain; rewrite Hret' in Hmain;
              apply Hmain]
        | |- closed _ = _ => by rewrite <- Hlclosed
        | |- _ = CDone → _ =>
            intros Hdone; by specialize (Hgone _ Hdone eq_refl)
        | |- ∀ _, _ !! _ = Some WDone → _ =>
            intros k Hk; destruct (decide (k = i)) as [-> |];
            [by destruct (sender s) | rewrite list_lookup_insert_ne in Hk by done;
               by destruct (Hret k Hk)]
        | |- _ = [] → _ =>
            intros Hnil; apply (f_equal length) in Hnil;
            rewrite length_insert in Hnil; apply lookup_lt_Some in Hi;
            simpl in Hnil; lia
        end.
    + (* a link is received and checked *)
      destruct (checkLink w basePath timeout link) as [st|] eqn:Hcheck;
        intros [= <-].
      rewrite checkLink_returns in Hcheck. injection Hcheck as <-.
      split; simpl; rewrite ?Hbuf; try done;
        lazymatch goal with
        | |- _ ≡ₚ _ =>
            rewrite (held_receive _ _ (status link) Hi), <- Hcons;
            do 2 apply Permutation_app_head; simpl;
            by rewrite Permutation_middle
        | |- _ = Z.of_nat _ => by rewrite (active_receive _ _ _ Hi)
        | |- main_inv _ _ =>
            eapply main_inv_frame; [done | simpl; try done ..];
            [by rewrite length_insert
            | intros Hret'; unfold main_inv in Hmain; rewrite Hret' in Hmain;
              apply Hmain]
        | |- _ = CDone → _ =>
            intros Hdone; by specialize (Hgone _ Hdone eq_refl)
        | |- ∀ _, _ !! _ = Some WDone → _ =>
            intros k Hk; destruct (decide (k = i)) as [-> |];
            [rewrite list_lookup_insert_eq in Hk by (by eapply lookup_lt_Some);
               done
            | rewrite list_lookup_insert_ne in Hk by done;
              by destruct (Hret k Hk) as [_ Hempty]]
        | |- _ = [] → _ =>
            intros Hnil; apply (f_equal length) in Hnil;
            rewrite length_insert in Hnil; apply lookup_lt_Some in Hi;
            simpl in Hnil; lia
        end.
  - (* resultChan <- status *)
    destruct (closed (resultChan s)) eqn:Hcl.
    { intros _. destruct (closer s) eqn:Hcloser; try done.
      by specialize (Hgone _ eq_refl eq_refl). }
    destruct (chan_has_room (resultChan s)); intros [= <-].
    split; simpl; try done;
      lazymatch goal with
      | |- _ ≡ₚ _ =>
          rewrite <- Hcons, (held_send _ _ _ Hi);
          apply Permutation_app_head; rewrite <- app_assoc;
          by apply Permutation_app_head
      | |- _ = Z.of_nat _ => by rewrite (active_send _ _ _ Hi)
      | |- closed _ = _ => by rewrite Hcl
      | |- main_inv _ _ =>
          eapply main_inv_frame; [done | simpl; try done ..];
          [by rewrite length_insert
          | intros Hret'; unfold main_inv in Hmain; rewrite Hret' in Hmain;
            destruct Hmain as (_ & _ & Hdone & _);
            by rewrite Hdone in Hrclosed]
      | |- _ = CDone → _ =>
          intros Hdone; by specialize (Hgone _ Hdone eq_refl)
      | |- ∀ _, _ !! _ = Some WDone → _ =>
          intros k Hk; destruct (decide (k = i)) as [-> |];
          [rewrite list_lookup_insert_eq in Hk by (by eapply lookup_lt_Some);
             done
          | rewrite list_lookup_insert_ne in Hk by done; by apply Hret in Hk]
      | |- _ = [] → _ =>
          intros Hnil; apply (f_equal length) in Hnil;
          rewrite length_insert in Hnil; apply lookup_lt_Some in Hi;
          simpl in Hnil; lia
      end.
Qed.

Lemma pool_inv_step s s' : inv s → step s s' → inv s'.
Proof.
  intros Hinv [a Hstep]. unfold validator.step_of in Hstep.
  rewrite (inv_panicked _ _ _ _ _ _ Hinv) in Hstep.
  destruct a; eauto using pool_inv_main, pool_inv_sender, pool_inv_closer,
    pool_inv_worker.
Qed.

Lemma pool_inv_reachable s : rtc step (pool_init links) s → inv s.
Proof.
  intros Hrun. apply rtc_nsteps in Hrun as [n Hrun].
  revert s Hrun. induction n as [|n IH]; intros s Hrun.
  - inversion Hrun; subst. apply pool_inv_init.
  - apply nsteps_inv_r in Hrun as (s1 & Hrun & Hstep).
    eapply pool_inv_step; eauto.
Qed.

(** *** Every transition uses up [steps_left] *)

Lemma steps_left_nonneg s : 0 ≤ remaining s.
Proof.
  unfold steps_left, main_left, sender_left, closer_left.
  destruct (main s), (sender s), (closer s), (panicked s); lia.
Qed.

Lemma steps_left_step s s' :
  inv s → step s s' → remaining s' < remaining s.
Proof.
  intros Hinv [a Hstep]. unfold validator.step_of in Hstep.
  pose proof (inv_main _ _ _ _ _ _ Hinv) as Hmain. unfold main_inv in Hmain.
  destruct (panicked s) eqn:Hpanic; [done |].
  unfold steps_left. rewrite Hpanic. destruct a as [| | |i].
  - unfold main_step in Hstep. destruct (main s) as [k | | | |] eqn:Hpc.
    + destruct (Z.ltb_spec k maxWorkers); injection Hstep as <-; simpl;
        rewrite ?held_app, ?active_app, ?length_app, ?Hpanic; simpl; lia.
    + injection Hstep as <-. simpl. rewrite ?Hpanic.
      destruct Hmain as (_ & -> & _). simpl. lia.
    + injection Hstep as <-. simpl. rewrite ?Hpanic.
      destruct Hmain as (_ & _ & ->). simpl. lia.
    + destruct (buf (resultChan s)) as [|r rest] eqn:Hbuf.
      * destruct (closed (resultChan s)); [| done]. injection Hstep as <-. simpl.
        rewrite ?Hpc, ?Hbuf, ?Hpanic. simpl. lia.
      * injection Hstep as <-. simpl. rewrite ?Hpc, ?Hbuf, ?Hpanic. simpl. lia.
    + done.
  - unfold sender_step in Hstep.
    destruct (sender s) as [|[|link rest]|] eqn:Hsender; try done.
    + injection Hstep as <-. simpl. rewrite ?Hpanic. simpl. lia.
    + destruct (chan_has_room (linkChan s)); [| done]. injection Hstep as <-. simpl.
      rewrite ?Hpanic, length_app. simpl. lia.
  - unfold closer_step in Hstep. destruct (closer s) eqn:Hcloser; try done.
    destruct (wg s =? 0); [| done]. injection Hstep as <-. simpl. rewrite ?Hpanic. lia.
  - unfold worker_step in Hstep.
    destruct (workers s !! i) as [[|st|]|] eqn:Hi; try done.
    + destruct (buf (linkChan s)) as [|link rest] eqn:Hbuf.
      * destruct (closed (linkChan s)); [| done]. injection Hstep as <-. simpl.
        rewrite ?Hbuf, ?Hpanic, (held_return _ _ Hi), (active_return _ _ Hi).
        simpl. lia.
      * destruct (checkLink w basePath timeout link) as [st|]; [| done].
        injection Hstep as <-. simpl.
        rewrite ?Hbuf, ?Hpanic, (active_receive _ _ st Hi).
        rewrite (Permutation_length (held_receive _ _ st Hi)). simpl. lia.
    + destruct (closed (resultChan s)).
      * injection Hstep as <-. simpl. lia.
      * destruct (chan_has_room (resultChan s)); [| done]. injection Hstep as <-. simpl.
        rewrite ?Hpanic, length_app, (active_send _ _ _ Hi).
        rewrite (Permutation_length (held_send _ _ _ Hi)). simpl. lia.
Qed.

(** *** No deadlock *)

Lemma pool_progress s :
  links ≠ [] → inv s → main s ≠ MReturned → ∃ s', step s s'.
Proof.
  intros Hlinks Hinv Hrunning.
  destruct Hinv
    as [Hpanic Hlcap Hrcap Hcons Hwg Hmain Hlclosed Hrclosed Hcdone Hret Hnone].
  assert (0 < length links)%nat as Hroom
    by (destruct links; [done | simpl; lia]).
  assert (∀ a, is_Some (validator.step_of w links basePath timeout maxWorkers a s)
               → ∃ s', step s s') as Hact by (intros a [s' Ha]; by exists s', a).
  unfold validator.step_of in Hact. rewrite Hpanic in Hact.
  unfold main_inv in Hmain.
  destruct (main s) as [k | | | |] eqn:Hpc; try done.
  - apply (Hact AMain). unfold main_step. rewrite Hpc.
    by destruct (k <? maxWorkers).
  - apply (Hact AMain). unfold main_step. by rewrite Hpc.
  - apply (Hact AMain). unfold main_step. by rewrite Hpc.
  - destruct Hmain as (Hlen & Hsender & Hcloser).
    destruct (buf (resultChan s)) as [|r rest] eqn:Hrbuf;
      [| apply (Hact AMain); unfold main_step; by rewrite Hpc, Hrbuf].
    destruct (closed (resultChan s)) eqn:Hrcl;
      [apply (Hact AMain); unfold main_step; by rewrite Hpc, Hrbuf, Hrcl |].
    (* main waits for a result: the closer or a worker can move, or the
       sender can *)
    destruct (closer s) eqn:Hcl; try done.
    destruct (Z.eqb_spec (wg s) 0) as [Hzero | Hbusy];
      [apply (Hact ACloser); unfold closer_step; rewrite Hcl;
       by destruct (Z.eqb_spec (wg s) 0) |].
    destruct (active_some (workers s)) as (i & p & Hi & Hp).
    { intros Hnil. rewrite Hnil in Hwg. simpl in Hwg. lia. }
    destruct p as [|st|]; try done.
    + destruct (buf (linkChan s)) as [|link rest] eqn:Hlbuf.
      * destruct (closed (linkChan s)) eqn:Hlcl.
        { apply (Hact (AWorker i)). unfold worker_step.
          by rewrite Hi, Hlbuf, Hlcl. }
        destruct (sender s) as [|[|link rest]|] eqn:Hsnd; try done.
        { apply (Hact ASender). unfold sender_step. by rewrite Hsnd. }
        apply (Hact ASender). unfold sender_step, chan_has_room.
        rewrite Hsnd, Hlbuf, Hlcap. simpl.
        by destruct (Nat.ltb_spec 0 (length links)); [| lia].
      * apply (Hact (AWorker i)). unfold worker_step.
        by rewrite Hi, Hlbuf, checkLink_returns.
    + apply (Hact (AWorker i)). unfold worker_step, chan_has_room.
      rewrite Hi, Hrcl, Hrbuf, Hrcap. simpl.
      by destruct (Nat.ltb_spec 0 (length links)); [| lia].
Qed.

(** Every run goes on to the return of [main]. *)
Lemma pool_completes s :
  links ≠ [] → inv s → ∃ s', rtc step s s' ∧ main s' = MReturned.
Proof.
  intros Hlinks.
  assert (∀ n s, remaining s < Z.of_nat n → inv s →
                 ∃ s', rtc step s s' ∧ main s' = MReturned) as Hall.
  { clear s. induction n as [|n IH]; intros s Hn Hinv.
    - pose proof (steps_left_nonneg s). lia.
    - assert (main s = MReturned ∨ main s ≠ MReturned) as [Hret | Hrunning]
        by (destruct (main s); auto).
      + exists s. by split.
      + destruct (pool_progress s Hlinks Hinv Hrunning) as [s1 Hstep].
        destruct (IH s1) as (s' & Hrun & Hret).
        * pose proof (steps_left_step s s1 Hinv Hstep). lia.
        * by eapply pool_inv_step.
        * exists s'. split; [by eapply rtc_l | done]. }
  intros Hinv. apply (Hall (S (Z.to_nat (remaining s)))); [| done].
  pose proof (steps_left_nonneg s). lia.
Qed.

(** *** What [main] returns *)

Lemma pool_returned_all s :
  1 ≤ maxWorkers → inv s → main s = MReturned →
  results s ≡ₚ status <$> links.
Proof.
  intros Hworkers
    [Hpanic Hlcap Hrcap Hcons Hwg Hmain Hlclosed Hrclosed Hcdone Hret Hnone] Hpc.
  unfold main_inv in Hmain. rewrite Hpc in Hmain.
  destruct Hmain as (Hlen & Hsender & Hcloser & Hrbuf).
  specialize (Hcdone Hcloser).
  destruct (workers s) as [|p ws] eqn:Hws; [simpl in Hlen; lia |].
  assert (p = WDone) as -> by (by eapply (active_nil (p :: ws) 0)).
  destruct (Hret 0%nat) as [Hsdone Hlbuf]; [done |].
  rewrite Hrbuf, Hlbuf, Hsdone, (held_nil _ Hcdone) in Hcons.
  simpl in Hcons. by rewrite app_nil_r in Hcons.
Qed.

Lemma pool_returned_none s :
  maxWorkers ≤ 0 → inv s → main s = MReturned → results s = [].
Proof.
  intros Hworkers
    [Hpanic Hlcap Hrcap Hcons Hwg Hmain Hlclosed Hrclosed Hcdone Hret Hnone] Hpc.
  unfold main_inv in Hmain. rewrite Hpc in Hmain.
  destruct Hmain as (Hlen & _). apply Hnone.
  apply length_zero_iff_nil. lia.
Qed.

(** Whatever the number of workers, a collected status is the status of
    one of the links. *)
Lemma pool_results_checked s st :
  inv s → st ∈ results s → ∃ link, link ∈ links ∧ st = status link.
Proof.
  intros Hinv Hin.
  assert (st ∈ status <$> links) as Hst.
  { rewrite <- (inv_conserved _ _ _ _ _ _ Hinv). apply elem_of_app. by left. }
  apply list_elem_of_fmap in Hst as (link & -> & Hlink). by exists link.
Qed.

(** *** The scheduler [run] *)

Local Abbreviation first_step :=
  (validator.first_step w links basePath timeout maxWorkers).
Local Abbreviation run := (validator.run w links basePath timeout maxWorkers).

Lemma first_step_sound l s s' : first_step l s = Some s' → step s s'.
Proof.
  induction l as [|a l IH]; simpl; [done |].
  destruct (step_of a s) as [s1|] eqn:Ha; [| done].
  intros [= <-]. by exists a.
Qed.

Lemma first_step_finds l s a :
  a ∈ l → is_Some (step_of a s) → is_Some (first_step l s).
Proof.
  induction l as [|b l IH]; [by intros ?%not_elem_of_nil |].
  intros [-> | Hin]%elem_of_cons Ha; simpl.
  - destruct Ha as [s' ->]. eauto.
  - destruct (step_of b s); eauto.
Qed.

Lemma step_actor_listed a s :
  is_Some (step_of a s) → a ∈ actors s.
Proof.
  unfold actors. destruct a as [| | |i]; [set_solver ..|].
  intros [s' Hstep]. apply elem_of_app. right.
  apply list_elem_of_fmap. exists i. split; [done |].
  apply elem_of_seq. split; [lia |]. simpl.
  unfold validator.step_of, worker_step in Hstep.
  destruct (panicked s); [done |].
  destruct (workers s !! i) eqn:Hi; [| done]. by eapply lookup_lt_Some.
Qed.

Lemma first_step_enabled s s' :
  step s s' → is_Some (first_step (actors s) s).
Proof.
  intros [a Ha]. eapply first_step_finds; [| by eexists].
  apply step_actor_listed. by eexists.
Qed.

Lemma run_S fuel s :
  run (S fuel) s =
  match first_step (actors s) s with
  | Some s' => run fuel s'
  | None => s
  end.
Proof. done. Qed.

Lemma run_reaches fuel : ∀ s, rtc step s (run fuel s).
Proof.
  induction fuel as [|fuel IH]; intros s; [apply rtc_refl |].
  rewrite run_S. destruct (first_step (actors s) s) as [s'|] eqn:Hfirst; [| apply rtc_refl].
  eapply rtc_l; [by eapply first_step_sound | apply IH].
Qed.

Lemma run_returns fuel : ∀ s,
  links ≠ [] → inv s → remaining s ≤ Z.of_nat fuel →
  main (run fuel s) = MReturned.
Proof.
  induction fuel as [|fuel IH]; intros s Hlinks Hinv Hfuel;
    [simpl | rewrite run_S].
  - assert (main s = MReturned ∨ main s ≠ MReturned) as [Hret | Hrunning]
      by (destruct (main s); auto); [done |].
    destruct (pool_progress s Hlinks Hinv Hrunning) as [s1 Hstep].
    pose proof (steps_left_step s s1 Hinv Hstep).
    pose proof (steps_left_nonneg s1). lia.
  - destruct (first_step (actors s) s) as [s'|] eqn:Hfirst.
    + apply first_step_sound in Hfirst.
      pose proof (steps_left_step s s' Hinv Hfirst).
      apply IH; [done | by eapply pool_inv_step | lia].
    + assert (main s = MReturned ∨ main s ≠ MReturned) as [Hret | Hrunning]
        by (destruct (main s); auto); [done |].
      destruct (pool_progress s Hlinks Hinv Hrunning) as [s1 Hstep].
      apply first_step_enabled in Hstep as [s2 Hs2]. congruence.
Qed.

(** The scheduled run returns, and what it returns is a result of the
    call. *)
Lemma ValidateLinksAsync_run_returns :
  ∃ rs, ValidateLinksAsync_run w links basePath timeout maxWorkers = Some rs
        ∧ ValidateLinksAsync w links basePath timeout maxWorkers rs.
Proof.
  unfold ValidateLinksAsync_run.
  destruct links as [|link rest] eqn:Hlinks.
  { exists []. split; [done | by constructor]. }
  rewrite <- Hlinks.
  set (fuel := Z.to_nat (remaining (pool_init links))).
  assert (links ≠ []) as Hne by (by rewrite Hlinks).
  rewrite (run_returns fuel); [| done | apply pool_inv_init |].
  - eexists. split; [done |].
    constructor; [done | apply run_reaches |].
    apply run_returns; [done | apply pool_inv_init |].
    pose proof (steps_left_nonneg (pool_init links)). lia.
  - pose proof (steps_left_nonneg (pool_init links)). lia.
Qed.

Lemma run_result rs :
  ValidateLinksAsync_run w links basePath timeout maxWorkers = Some rs →
  ValidateLinksAsync w links basePath timeout maxWorkers rs.
Proof.
  destruct ValidateLinksAsync_run_returns as (rs' & -> & Hrs).
  by intros [= <-].
Qed.

(** A status anywhere in the pool (held by a worker, on [resultChan] or
    collected) is the status of one of the links. *)
Lemma pool_status_checked s st :
  inv s →
  st ∈ held (workers s) ++ buf (resultChan s) ++ results s →
  ∃ link, link ∈ links ∧ st = status link.
Proof.
  intros Hinv Hin.
  assert (st ∈ status <$> links) as Hst.
  { rewrite <- (inv_conserved _ _ _ _ _ _ Hinv).
    rewrite !elem_of_app in Hin. rewrite !elem_of_app. tauto. }
  apply list_elem_of_fmap in Hst as (link & -> & Hlink). by exists link.
Qed.

(** With no worker to start, no state of the call has a worker. *)
Lemma pool_no_workers s : maxWorkers ≤ 0 → inv s → workers s = [].
Proof.
  intros Hnone Hinv. apply length_zero_iff_nil.
  pose proof (inv_main _ _ _ _ _ _ Hinv) as Hmain. unfold main_inv in Hmain.
  destruct (main s); lia.
Qed.

(** The results of a call. *)
Lemma ValidateLinksAsync_all rs :
  1 ≤ maxWorkers →
  ValidateLinksAsync w links basePath timeout maxWorkers rs →
  rs ≡ₚ status <$> links.
Proof.
  intros Hworkers Hrs. destruct Hrs as [-> | s Hlinks Hrun Hret]; [done |].
  apply pool_returned_all; [done | by apply pool_inv_reachable | done].
Qed.

Lemma ValidateLinksAsync_none rs :
  maxWorkers ≤ 0 →
  ValidateLinksAsync w links basePath timeout maxWorkers rs → rs = [].
Proof.
  intros Hworkers Hrs. destruct Hrs as [-> | s Hlinks Hrun Hret]; [done |].
  apply pool_returned_none; [done | by apply pool_inv_reachable | done].
Qed.

Lemma ValidateLinksAsync_checked rs st :
  ValidateLinksAsync w links basePath timeout maxWorkers rs →
  st ∈ rs → ∃ link, link ∈ links ∧ st = status link.
Proof.
  intros Hrs Hin. destruct Hrs as [-> | s Hlinks Hrun Hret].
  - by apply not_elem_of_nil in Hin.
  - eapply pool_results_checked; [by apply pool_inv_reachable | done].
Qed.

Lemma ValidateLinksAsync_returns :
  ∃ rs, ValidateLinksAsync w links basePath timeout maxWorkers rs.
Proof. destruct ValidateLinksAsync_run_returns as (rs & _ & Hrs). eauto. Qed.
End pool_facts.

(** ** The claims about the pool *)

(** C1.  For a non-empty list of links and a worker count between 1 and the
    number of links, the call returns, every run of the pool reaches the
    return (no state on the way is stuck, and each transition uses up a
    bound), and whatever the completion order the returned collection has one
    status per input link: it is a permutation of the statuses of the links,
    as long as the input and with the links of the input. *)
Theorem pool_one_status_per_link (w : World) (links : list string)
    (basePath : string) (timeout maxWorkers : Z) :
  links ≠ [] →
  1 ≤ maxWorkers ≤ Z.of_nat (length links) →
  (∃ rs, validator.ValidateLinksAsync w links basePath timeout maxWorkers rs)
  ∧ (∀ s,
       rtc (validator.step w links basePath timeout maxWorkers)
         (validator.pool_init links) s →
       validator.panicked s = false
       ∧ (validator.main s = validator.MReturned
          ∨ ∃ s', validator.step w links basePath timeout maxWorkers s s')
       ∧ ∀ s', validator.step w links basePath timeout maxWorkers s s' →
               0 ≤ validator.steps_left links maxWorkers s'
                 < validator.steps_left links maxWorkers s)
  ∧ ∀ rs,
      validator.ValidateLinksAsync w links basePath timeout maxWorkers rs →
      length rs = length links
      ∧ rs ≡ₚ validator.statusOf w basePath timeout <$> links
      ∧ validator.Link <$> rs ≡ₚ links.
Proof.
  intros Hlinks [Hworkers _]. split_and!.
  - apply ValidateLinksAsync_returns.
  - intros s Hrun. pose proof (pool_inv_reachable _ _ _ _ _ _ Hrun) as Hinv.
    split_and!.
    + apply Hinv.
    + destruct (validator.main s) eqn:Hpc; auto; right;
        apply pool_progress; auto; congruence.
    + intros s' Hstep. split; [apply steps_left_nonneg |].
      by eapply steps_left_step.
  - intros rs Hrs. apply ValidateLinksAsync_all in Hrs; [| done].
    split_and!.
    + by rewrite Hrs, length_fmap.
    + done.
    + rewrite Hrs, <- list_fmap_compose.
      rewrite (list_fmap_ext _ id links) by (intros; apply statusOf_Link).
      by rewrite list_fmap_id.
Qed.

Lemma pool_one_status_per_link_witness :
  ∃ rs,
    validator.ValidateLinksAsync sample.docs_world
      ["#section"; "test.md"; "http://host/ok"] "/d" 30 2 rs
    ∧ length rs = 3%nat
    ∧ validator.Link <$> rs ≡ₚ ["#section"; "test.md"; "http://host/ok"].
Proof.
  destruct (pool_one_status_per_link sample.docs_world
              ["#section"; "test.md"; "http://host/ok"] "/d" 30 2)
    as ([rs Hrs] & _ & Hall); [done | simpl; lia |].
  exists rs. destruct (Hall rs Hrs) as (Hlen & _ & Hlinks). by split_and!.
Defined.

(** Every status [checkLink] builds is well formed. *)
Lemma checkLink_wellformed (w : World) (basePath : string) (timeout : Z)
    (link : string) (st : validator.LinkStatus) :
  validator.checkLink w basePath timeout link = Some st →
  (validator.Valid st = true → validator.Reason st = "")
  ∧ (validator.isHTTP link = false → validator.StatusCode st = 0)
  ∧ ((∃ e, validator.client_Head w timeout link = Some (Err e)) →
     (∃ e, validator.client_Get w timeout link = Some (Err e)) →
     validator.StatusCode st = 0).
Proof.
  unfold validator.checkLink.
  destruct (validator.isHTTP link).
  - unfold validator.checkHTTP, validator.classifyResponse.
    destruct (validator.client_Head w timeout link) as [[resp | e] |]; [| | done].
    + destruct (_ && _); intros [= <-]; simpl; split_and!; try done;
        by intros [? [=]].
    + destruct (validator.client_Get w timeout link) as [[resp | e'] |]; [| | done].
      * destruct (_ && _); intros [= <-]; simpl; split_and!; try done;
          by intros _ [? [=]].
      * destruct (Contains e' "timeout"); by intros [= <-].
  - unfold validator.checkFile.
    destruct (Stat w _); by intros [= <-].
Qed.

(** C9.  Every status a worker produces, wherever it is in a run of the pool
    (held by the worker, on the result channel, or collected), has an empty
    reason when it is valid, and status code 0 when it comes from a file
    check or from an HTTP check whose HEAD and GET both failed. *)
Theorem worker_status_invariant (w : World) (links : list string)
    (basePath : string) (timeout maxWorkers : Z) (s : validator.Pool)
    (st : validator.LinkStatus) :
  rtc (validator.step w links basePath timeout maxWorkers)
    (validator.pool_init links) s →
  st ∈ validator.held (validator.workers s)
       ++ validator.buf (validator.resultChan s) ++ validator.results s →
  (validator.Valid st = true → validator.Reason st = "")
  ∧ (validator.isHTTP (validator.Link st) = false → validator.StatusCode st = 0)
  ∧ ((∃ e, validator.client_Head w timeout (validator.Link st) = Some (Err e)) →
     (∃ e, validator.client_Get w timeout (validator.Link st) = Some (Err e)) →
     validator.StatusCode st = 0).
Proof.
  intros Hrun Hin.
  apply pool_inv_reachable in Hrun.
  destruct (pool_status_checked _ _ _ _ _ _ _ Hrun Hin) as (link & _ & ->).
  rewrite statusOf_Link.
  apply (checkLink_wellformed w basePath timeout), checkLink_returns.
Qed.

Lemma worker_status_invariant_witness :
  let st := {| validator.Link := "http://host/down"; validator.Valid := false;
               validator.Reason := "dial tcp: connection refused";
               validator.StatusCode := 0 |} in
  (validator.Valid st = true → validator.Reason st = "")
  ∧ (validator.isHTTP (validator.Link st) = false → validator.StatusCode st = 0)
  ∧ ((∃ e, validator.client_Head sample.docs_world 30 (validator.Link st)
           = Some (Err e)) →
     (∃ e, validator.client_Get sample.docs_world 30 (validator.Link st)
           = Some (Err e)) →
     validator.StatusCode st = 0).
Proof.
  apply (worker_status_invariant sample.docs_world
           ["test.md"; "http://host/down"] "/d" 30 2
           (validator.run sample.docs_world ["test.md"; "http://host/down"]
              "/d" 30 2 12 (validator.pool_init ["test.md"; "http://host/down"]))).
  - apply run_reaches.
  - apply list_elem_of_In. vm_compute. auto.
Defined.

(** C4, as the code has it.  With a worker count of zero or less the call is
    not rejected: no worker is started, no link is checked, and the call
    returns the empty collection, the only result it can return, for every
    input; its callers [processMarkdownFile] and [processURL] pass the count
    on as it is and return no results and no error for a document they could
    read. *)
Theorem pool_without_workers (w : World) (maxWorkers : Z) :
  maxWorkers ≤ 0 →
  (∀ links basePath timeout,
     validator.ValidateLinksAsync w links basePath timeout maxWorkers []
     ∧ (∀ rs, validator.ValidateLinksAsync w links basePath timeout maxWorkers rs →
              rs = [])
     ∧ (∀ s, rtc (validator.step w links basePath timeout maxWorkers)
               (validator.pool_init links) s →
             validator.workers s = [] ∧ validator.panicked s = false))
  ∧ (∀ config, cli.Workers config = maxWorkers →
       (∀ filePath links r,
          ExtractLinksFromFile w filePath = Ok links →
          cli.processMarkdownFile w config filePath r → r = Ok [])
       ∧ (∀ inputURL content baseURL r,
            FetchPage w (cli.Timeout config) inputURL = Ok (Ok content) →
            Parse w inputURL = Ok baseURL →
            cli.processURL w config inputURL r → r = Ok [])).
Proof.
  intros Hnone. split.
  - intros links basePath timeout. split_and!.
    + destruct (ValidateLinksAsync_returns w links basePath timeout maxWorkers)
        as [rs Hrs].
      by rewrite <- (ValidateLinksAsync_none _ _ _ _ _ _ Hnone Hrs).
    + intros rs. by apply ValidateLinksAsync_none.
    + intros s Hrun%pool_inv_reachable. split.
      * by eapply pool_no_workers.
      * apply Hrun.
  - intros config <-. split.
    + intros filePath links r Hread Hr.
      destruct Hr as [e He | links' rs Hlinks Hrs]; [congruence |].
      by rewrite (ValidateLinksAsync_none _ _ _ _ _ _ Hnone Hrs).
    + intros inputURL content baseURL r Hpage Hbase Hr.
      destruct Hr as [e He | e He | content' e Hc He | content' baseURL' rs Hc Hb Hrs];
        try congruence.
      by rewrite (ValidateLinksAsync_none _ _ _ _ _ _ Hnone Hrs).
Qed.

Lemma pool_without_workers_witness :
  validator.ValidateLinksAsync sample.docs_world ["test.md"; "missing.md"]
    "/d" 30 (-1) [].
Proof.
  apply (pool_without_workers sample.docs_world (-1)). lia.
Defined.

(** The call with no workers at work: a document with three links, a worker
    count of 0, and a normal, empty outcome at each level, up to the report
    of [runLinkChecker] with a total of 0. *)
Lemma no_workers_not_rejected :
  validator.ValidateLinksAsync sample.docs_world
    ["#section"; "test.md"; "http://host/ok"] "/d" (30 * 1000000000) 0 []
  ∧ cli.processMarkdownFile sample.docs_world
      (sample.config_for ["/d/doc.md"] [] 0 false) "/d/doc.md" (Ok [])
  ∧ cli.runLinkChecker sample.docs_world (sample.config_for [] [] 0 false)
      ["/d/doc.md"]
      (Ok {| cli.Total := 0; cli.Valid := 0; cli.Invalid := 0;
             cli.Duration := "1ms"; cli.Results := [] |}).
Proof.
  assert (validator.ValidateLinksAsync sample.docs_world
            ["#section"; "test.md"; "http://host/ok"] "/d" (30 * 1000000000) 0 [])
    as Hpool by (by apply run_result).
  assert (cli.processMarkdownFile sample.docs_world
            (sample.config_for ["/d/doc.md"] [] 0 false) "/d/doc.md" (Ok []))
    as Hdoc.
  { apply (cli.markdown_checked _ _ _
             ["#section"; "test.md"; "http://host/ok"] []); [done | apply Hpool]. }
  split_and!; [done | done |].
  eapply cli.check_run; [done | done |].
  set (config := cli.set_IgnoreRegex [] _).
  assert (cli.runRealLinkChecker sample.docs_world config
            (Ok (cli.report config [] "1ms"))) as Hrun; [| exact Hrun].
  apply (cli.run_output _ _ [] [] "1ms").
  - eapply cli.gather_next; [| apply cli.gather_end].
    by eapply cli.path_markdown.
  - apply cli.gather_end.
  - reflexivity.
Qed.

(** ** The claims about the checks of one link *)

(** C2, on the code.  A server's answer to HEAD is no error for the client,
    whatever its status: when HEAD is answered 405, the verdict is that of
    the 405 answer (invalid, with its status line) and no GET is made,
    whatever GET would have answered. *)
Theorem head_405_is_final (w : World) (url : string) (timeout : Z)
    (resp : Response) :
  transport w timeout HEAD url = Ok resp →
  RespStatusCode resp = 405 →
  validator.client_Head w timeout url = Some (Ok resp)
  ∧ validator.checkHTTP w url timeout = Some (false, RespStatus resp, 405).
Proof.
  intros Hhead Hcode.
  assert (validator.client_Head w timeout url = Some (Ok resp)) as Hresp.
  { unfold validator.client_Head. simpl. by rewrite Hhead, Hcode. }
  split; [done |].
  unfold validator.checkHTTP. rewrite Hresp.
  rewrite classifyResponse_invalid by lia. by rewrite Hcode.
Qed.

Lemma head_405_is_final_witness :
  transport (sample.world sample.head_unsupported [] [] []) 30 GET "http://host/doc"
    = Ok (sample.response 200 "200 OK")
  ∧ validator.checkHTTP (sample.world sample.head_unsupported [] [] [])
      "http://host/doc" 30
    = Some (false, "405 Method Not Allowed", 405).
Proof.
  split; [done |].
  apply (head_405_is_final (sample.world sample.head_unsupported [] [] [])
           "http://host/doc" 30 (sample.response 405 "405 Method Not Allowed"));
    reflexivity.
Defined.

(** The verdict of [checkHTTP], case by case.  When the check obtains a
    response (from HEAD, or from GET after a failed HEAD), a status code in
    [200,400) gives valid with that code and no reason, any other code gives
    invalid with the status line as reason and that code.  When HEAD and GET
    both fail, the verdict is invalid with code 0, and the reason is
    "Request timeout" exactly when the text of GET's error contains
    "timeout" in lower case, the text itself otherwise. *)
Lemma http_verdict (w : World) (url : string) (timeout : Z) :
  (∀ resp,
     validator.client_Head w timeout url = Some (Ok resp)
     ∨ (∃ e, validator.client_Head w timeout url = Some (Err e))
       ∧ validator.client_Get w timeout url = Some (Ok resp) →
     (200 ≤ RespStatusCode resp < 400 →
      validator.checkHTTP w url timeout = Some (true, "", RespStatusCode resp))
     ∧ (RespStatusCode resp < 200 ∨ 400 ≤ RespStatusCode resp →
        validator.checkHTTP w url timeout
        = Some (false, RespStatus resp, RespStatusCode resp)))
  ∧ (∀ e1 e2,
       validator.client_Head w timeout url = Some (Err e1) →
       validator.client_Get w timeout url = Some (Err e2) →
       ∃ reason,
         validator.checkHTTP w url timeout = Some (false, reason, 0)
         ∧ (reason = "Request timeout" ↔ Contains e2 "timeout" = true)
         ∧ (Contains e2 "timeout" = false → reason = e2)).
Proof.
  split.
  - intros resp Hresp.
    assert (validator.checkHTTP w url timeout
            = Some (validator.classifyResponse resp)) as ->.
    { unfold validator.checkHTTP.
      destruct Hresp as [-> | [[e ->] ->]]; done. }
    split; intros Hcode.
    + by rewrite classifyResponse_valid.
    + by rewrite classifyResponse_invalid.
  - intros e1 e2 Hhead Hget. unfold validator.checkHTTP. rewrite Hhead, Hget.
    destruct (Contains e2 "timeout") eqn:Htimeout; eexists; split_and!; try done.
    split; [| done]. intros ->. by vm_compute in Htimeout.
Qed.

Lemma http_verdict_witness :
  validator.checkHTTP sample.docs_world "http://host/notfound" 30
    = Some (false, "404 Not Found", 404)
  ∧ validator.checkHTTP sample.docs_world "http://host/ok" 30
    = Some (true, "", 200)
  ∧ validator.checkHTTP sample.docs_world "http://host/slow" 30
    = Some (false, "Request timeout", 0).
Proof.
  split_and!.
  - destruct (http_verdict sample.docs_world "http://host/notfound" 30)
      as [Hresp _].
    destruct (Hresp (sample.response 404 "404 Not Found")) as [_ Hbad];
      [by left |].
    apply Hbad. simpl. lia.
  - destruct (http_verdict sample.docs_world "http://host/ok" 30) as [Hresp _].
    destruct (Hresp (sample.response 200 "200 OK")) as [Hgood _]; [by left |].
    apply Hgood. simpl. lia.
  - destruct (http_verdict sample.docs_world "http://host/slow" 30) as [_ Hfail].
    destruct (Hfail "dial tcp: i/o timeout" "dial tcp: i/o timeout")
      as (reason & -> & [_ ->] & _); done.
Defined.

(** *** Timeouts *)

Section error_texts.
(** A separator that does not occur in [substr] splits the search. *)
Lemma prefix_separated (c : ascii) : ∀ substr a b,
  Contains substr (String c "") = false →
  String.prefix substr (a +:+ String c b) = String.prefix substr a.
Proof.
  induction substr as [|x substr IH]; intros a b Hc; [by destruct a |].
  simpl in Hc. apply orb_false_elim in Hc as [Hx Hrest].
  destruct a as [|y a]; simpl.
  - unfold HasPrefix in Hx. simpl in Hx.
    destruct (ascii_dec c x) as [-> |]; [by destruct substr |].
    by destruct (ascii_dec x c) as [-> |].
  - destruct (ascii_dec x y); [| done]. by apply IH.
Qed.

Lemma Contains_cons y s substr :
  Contains (String y s) substr
  = String.prefix substr (String y s) || Contains s substr.
Proof. done. Qed.

Lemma Contains_separated (c : ascii) substr : ∀ a b,
  Contains substr (String c "") = false →
  Contains (a +:+ String c b) substr = Contains a substr || Contains b substr.
Proof.
  intros a b Hc. induction a as [|y a IH].
  - pose proof (prefix_separated c substr "" b Hc) as Hp.
    change ("" +:+ String c b) with (String c b) in *.
    rewrite Contains_cons, Hp. simpl. unfold HasPrefix.
    by rewrite orb_false_r.
  - pose proof (prefix_separated c substr (String y a) b Hc) as Hp.
    change (String y a +:+ String c b) with (String y (a +:+ String c b)) in *.
    by rewrite !Contains_cons, Hp, IH, orb_assoc.
Qed.

(** Where "timeout" can be in the text of an error of the client: in the
    URL or in the transport's error. *)
Lemma urlError_timeout m shown err :
  Contains (urlError m shown err) "timeout"
  = Contains shown "timeout" || Contains (": " +:+ err) "timeout".
Proof.
  assert (Contains (urlErrorOp m +:+ " ") "timeout" = false) as Hop
    by (by destruct m).
  assert (urlError m shown err
          = (urlErrorOp m +:+ " ")
              +:+ String dquote (shown +:+ String dquote (": " +:+ err)))
    as -> by (by destruct m).
  rewrite !(Contains_separated dquote) by done. by rewrite Hop.
Qed.

Lemma clientTimeout_timeout m shown err :
  Contains (clientTimeout m shown err) "timeout"
  = Contains shown "timeout" || Contains err "timeout".
Proof.
  unfold clientTimeout. rewrite urlError_timeout. f_equal.
  change (": " +:+ err +:+ " (Client.Timeout exceeded while awaiting headers)")
    with (":" +:+ String " "
            (err +:+ String " "
               "(Client.Timeout exceeded while awaiting headers)")).
  rewrite !(Contains_separated " ") by done. simpl.
  by rewrite orb_false_r.
Qed.
End error_texts.

(** C5.  [checkHTTP] tells a timeout by the text of GET's error: by whether
    it contains "timeout" in lower case.  The error of its own client's
    [Timeout], of a server that does not answer in time, has "Timeout" in
    upper case only: unless the URL or the transport's error has the word,
    the reason returned is the raw text of the error, not "Request timeout".
    And every failed request to a URL that has "timeout" in it, a refused
    connection as well, is reported as "Request timeout". *)
Theorem client_timeout_is_not_recognised (w : World) (url : string)
    (timeout : Z) (shown err e1 : string) :
  validator.client_Head w timeout url = Some (Err e1) →
  (Contains shown "timeout" = false → Contains err "timeout" = false →
   validator.client_Get w timeout url
   = Some (Err (clientTimeout GET shown err)) →
   validator.checkHTTP w url timeout
   = Some (false, clientTimeout GET shown err, 0)
   ∧ clientTimeout GET shown err ≠ "Request timeout")
  ∧ (Contains shown "timeout" = true →
     validator.client_Get w timeout url = Some (Err (urlError GET shown err)) →
     validator.checkHTTP w url timeout = Some (false, "Request timeout", 0)).
Proof.
  intros Hhead. unfold validator.checkHTTP. rewrite Hhead. split.
  - intros Hshown Herr ->.
    assert (Contains (clientTimeout GET shown err) "timeout" = false) as Hno
      by (by rewrite clientTimeout_timeout, Hshown, Herr).
    rewrite Hno. split; [done |].
    intros Heq. rewrite Heq in Hno. by vm_compute in Hno.
  - intros Hshown ->. by rewrite urlError_timeout, Hshown.
Qed.

(** A server that never answers, asked for [http://host/slow] with Go 1.22:
    the reason is the client's own text.  No server at all, asked for
    [http://host/timeouts.html]: the reason is "Request timeout". *)
Lemma client_timeout_is_not_recognised_witness :
  validator.checkHTTP (sample.world sample.stalled [] [] [])
    "http://host/slow" 30
  = Some (false,
          clientTimeout GET "http://host/slow" "context deadline exceeded", 0)
  ∧ String.eqb
      (clientTimeout GET "http://host/slow" "context deadline exceeded")
      "Request timeout" = false
  ∧ validator.checkHTTP (sample.world sample.refused [] [] [])
      "http://host/timeouts.html" 30
    = Some (false, "Request timeout", 0).
Proof.
  destruct (client_timeout_is_not_recognised
              (sample.world sample.stalled [] [] []) "http://host/slow" 30
              "http://host/slow" "context deadline exceeded"
              (clientTimeout HEAD "http://host/slow" "context deadline exceeded")
              eq_refl) as [Hslow _].
  destruct (Hslow eq_refl eq_refl eq_refl) as [Hraw _].
  destruct (client_timeout_is_not_recognised
              (sample.world sample.refused [] [] [])
              "http://host/timeouts.html" 30 "http://host/timeouts.html"
              "dial tcp 127.0.0.1:80: connect: connection refused"
              (urlError HEAD "http://host/timeouts.html"
                 "dial tcp 127.0.0.1:80: connect: connection refused")
              eq_refl) as [_ Hrefused].
  split_and!; [exact Hraw | reflexivity | exact (Hrefused eq_refl eq_refl)].
Defined.

(** C6.  A redirect chain longer than the cap is no error.  When the first ten
    requests of a HEAD (or of the GET made after a failed HEAD) are each
    answered by a redirect, the client stops there and hands back the tenth
    answer, and the check classifies that answer as it is: valid, with the
    redirect's own status code. *)
Theorem redirect_cap (w : World) (url : string) (timeout : Z)
    (resp10 : Response) (loc : string) :
  shouldRedirect (RespStatusCode resp10) = true →
  RespLocation resp10 = Some (Ok loc) →
  (validator.nth_response (transport w timeout HEAD) url 9 = Some resp10 →
   validator.client_Head w timeout url = Some (Ok resp10)
   ∧ validator.checkHTTP w url timeout = Some (true, "", RespStatusCode resp10))
  ∧ ((∃ e, validator.client_Head w timeout url = Some (Err e)) →
     validator.nth_response (transport w timeout GET) url 9 = Some resp10 →
     validator.client_Get w timeout url = Some (Ok resp10)
     ∧ validator.checkHTTP w url timeout = Some (true, "", RespStatusCode resp10)).
Proof.
  intros Hred Hloc.
  pose proof (shouldRedirect_3xx _ Hred) as Hcode.
  split.
  - intros Hchain.
    assert (validator.client_Head w timeout url = Some (Ok resp10)) as Hhead.
    { eapply client_do_capped; eauto; unfold validator.requestBudget; lia. }
    split; [done |]. unfold validator.checkHTTP. rewrite Hhead.
    rewrite classifyResponse_valid; [done | lia].
  - intros [e Hhead] Hchain.
    assert (validator.client_Get w timeout url = Some (Ok resp10)) as Hget.
    { eapply client_do_capped; eauto; unfold validator.requestBudget; lia. }
    split; [done |]. unfold validator.checkHTTP. rewrite Hhead, Hget.
    rewrite classifyResponse_valid; [done | lia].
Qed.

(** A chain of 11 redirects: the check ends on the tenth answer, the redirect
    from the page with nine letters to the page with ten. *)
Lemma redirect_cap_witness :
  validator.checkHTTP (sample.world (sample.redirect_chain 11) [] [] [])
    "http://host/" 30 = Some (true, "", 302)
  ∧ validator.client_Head (sample.world (sample.redirect_chain 11) [] [] [])
      30 "http://host/"
    = Some (Ok {| RespStatusCode := 302; RespStatus := "302 Found";
                  RespLocation := Some (Ok "http://host/rrrrrrrrrr") |}).
Proof.
  destruct (redirect_cap (sample.world (sample.redirect_chain 11) [] [] [])
              "http://host/" 30
              {| RespStatusCode := 302; RespStatus := "302 Found";
                 RespLocation := Some (Ok "http://host/rrrrrrrrrr") |}
              "http://host/rrrrrrrrrr") as [Hhead _]; [reflexivity | reflexivity |].
  destruct Hhead as [Hresp Hcheck]; [reflexivity |].
  split; [exact Hcheck | exact Hresp].
Defined.

(** The file branch of [checkLink]. *)
Lemma checkLink_file (w : World) (basePath : string) (timeout : Z)
    (link : string) :
  validator.isHTTP link = false →
  ∃ st,
    validator.checkLink w basePath timeout link = Some st
    ∧ validator.Link st = link
    ∧ validator.StatusCode st = 0
    ∧ (validator.Valid st, validator.Reason st)
      = validator.checkFile w basePath link
    ∧ let fullPath :=
        if IsAbs w link then link else Join w basePath link in
      (validator.Valid st = true ↔ ∃ info, Stat w fullPath = Ok info)
      ∧ (∀ info, Stat w fullPath = Ok info →
           validator.Valid st = true ∧ validator.Reason st = "")
      ∧ (∀ e, Stat w fullPath = Err e →
           validator.Valid st = false ∧ validator.Reason st = e).
Proof.
  intros Hfile. unfold validator.checkLink, validator.checkFile. rewrite Hfile.
  destruct (Stat w _) as [info | e] eqn:Hstat; eexists; split_and!; simpl;
    try done; try (intros ? [= <-]; done).
  - split; eauto.
  - split; [done | by intros [? [=]]].
Qed.

(** C7.  A link that is not an HTTP link is checked as a file: the path is the
    link itself when it is absolute and the link joined to the base directory
    otherwise; the status is valid exactly when [os.Stat] of that path
    succeeds, for a file or a directory alike; a failing stat gives invalid
    with the error's text as reason; the status code is 0 in every case. *)
Theorem file_verdict (w : World) (basePath : string) (timeout : Z)
    (link : string) :
  validator.isHTTP link = false →
  ∃ st,
    validator.checkLink w basePath timeout link = Some st
    ∧ validator.Link st = link
    ∧ validator.StatusCode st = 0
    ∧ (validator.Valid st, validator.Reason st)
      = validator.checkFile w basePath link
    ∧ let fullPath :=
        if IsAbs w link then link else Join w basePath link in
      (validator.Valid st = true ↔ ∃ info, Stat w fullPath = Ok info)
      ∧ (∀ info, Stat w fullPath = Ok info →
           validator.Valid st = true ∧ validator.Reason st = "")
      ∧ (∀ e, Stat w fullPath = Err e →
           validator.Valid st = false ∧ validator.Reason st = e).
Proof. apply checkLink_file. Qed.

Lemma file_verdict_witness :
  (∃ st, validator.checkLink sample.docs_world "/d" 30 "test.md" = Some st
         ∧ validator.Valid st = true ∧ validator.StatusCode st = 0)
  ∧ (∃ st, validator.checkLink sample.docs_world "/d" 30 "missing.md" = Some st
           ∧ validator.Valid st = false ∧ validator.StatusCode st = 0
           ∧ validator.Reason st
             = "stat /d/missing.md: no such file or directory").
Proof.
  split.
  - destruct (file_verdict sample.docs_world "/d" 30 "test.md")
      as (st & Hst & _ & Hcode & _ & Hvalid & _); [reflexivity |].
    exists st. split_and!; [done | | done].
    apply Hvalid. by eexists.
  - destruct (file_verdict sample.docs_world "/d" 30 "missing.md")
      as (st & Hst & _ & Hcode & _ & _ & _ & Hmissing); [reflexivity |].
    destruct (Hmissing "stat /d/missing.md: no such file or directory")
      as [Hinvalid Hreason]; [reflexivity |].
    exists st. by split_and!.
Defined.

(** ** The result pipeline *)

Section cli_facts.
Variable w : World.
Variable config : cli.Config.

Local Abbreviation from_status := cli.from_status.

Lemma toResult_Line source st : cli.Line (cli.toResult source st) = 0.
Proof. unfold cli.toResult. by destruct (validator.Valid st). Qed.

Lemma toResult_URL source st :
  cli.URL (cli.toResult source st) = validator.Link st.
Proof. unfold cli.toResult. by destruct (validator.Valid st). Qed.

Lemma toResult_Source source st : cli.Source (cli.toResult source st) = source.
Proof. unfold cli.toResult. by destruct (validator.Valid st). Qed.

Lemma toResult_Status source st :
  cli.Status (cli.toResult source st)
  = if validator.Valid st then "valid" else "invalid".
Proof. unfold cli.toResult. by destruct (validator.Valid st). Qed.

Lemma from_status_Line result : from_status result → cli.Line result = 0.
Proof. intros (source & st & ->). apply toResult_Line. Qed.

Lemma toResults_from_status source (sts : list validator.LinkStatus) :
  Forall from_status (cli.toResult source <$> sts).
Proof.
  apply Forall_fmap, Forall_forall. intros st _. by exists source, st.
Qed.

Lemma processMarkdownFile_from_status filePath results :
  cli.processMarkdownFile w config filePath (Ok results) →
  Forall from_status results.
Proof.
  inversion 1; subst. apply toResults_from_status.
Qed.

Lemma processURL_from_status inputURL results :
  cli.processURL w config inputURL (Ok results) →
  Forall from_status results.
Proof.
  inversion 1; subst. apply toResults_from_status.
Qed.

(** What holds of the start and of every batch holds of the gathered
    results. *)
Lemma gather_Forall {A : Type} (P : cli.Result → Prop)
    (process : A → result (list cli.Result) → Prop) wrap acc xs results :
  (∀ x rs, process x (Ok rs) → Forall P rs) →
  cli.gather process wrap acc xs (Ok results) →
  Forall P acc → Forall P results.
Proof.
  intros Hbatch Hgather. remember (Ok results) as r eqn:Hr.
  induction Hgather as [acc | acc x xs e He | acc x xs rs r Hx Hrest IH];
    intros Hacc.
  - by injection Hr as ->.
  - done.
  - apply IH; [done |]. apply Forall_app. split; [done | by eapply Hbatch].
Qed.

Lemma walkFn_from_status entry results :
  cli.walkFn w config entry (Ok results) → Forall from_status results.
Proof.
  inversion 1; subst; [by eapply processMarkdownFile_from_status | done].
Qed.

Lemma processPath_from_status inputPath results :
  cli.processPath w config inputPath (Ok results) →
  Forall from_status results.
Proof.
  inversion 1; subst.
  - eapply gather_Forall; [| done | done]. apply walkFn_from_status.
  - by eapply processMarkdownFile_from_status.
  - done.
Qed.

(** A loop of [gather] that ends without error has appended one batch per
    item, in the order of the items: what [process] returned for the item. *)
Lemma gather_batches {A : Type} (process : A → result (list cli.Result) → Prop)
    wrap acc xs results :
  cli.gather process wrap acc xs (Ok results) →
  ∃ batches,
    Forall2 (λ x batch, process x (Ok batch)) xs batches
    ∧ results = acc ++ concat batches.
Proof.
  intros Hloop. remember (Ok results) as r eqn:Hr.
  induction Hloop as [acc | acc x xs e Hx | acc x xs rs r Hx Hrest IH].
  - injection Hr as ->. exists []. split; [constructor |].
    by rewrite app_nil_r.
  - discriminate Hr.
  - destruct (IH Hr) as (batches & Hbatches & ->).
    exists (rs :: batches). split; [by constructor |].
    simpl. by rewrite (assoc_L (++)).
Qed.

(** The output of a run is the report of the merged batches: the batch of
    every input path, in order, followed by the batch of every input URL. *)
Lemma runRealLinkChecker_merged out :
  cli.runRealLinkChecker w config (Ok out) →
  ∃ fileBatches urlBatches duration,
    Forall2 (λ inputPath batch, cli.processPath w config inputPath (Ok batch))
      (cli.InputPaths config) fileBatches
    ∧ Forall2 (λ inputURL batch, cli.processURL w config inputURL (Ok batch))
        (cli.InputURLs config) urlBatches
    ∧ Forall from_status (concat fileBatches ++ concat urlBatches)
    ∧ out = cli.report config (concat fileBatches ++ concat urlBatches) duration.
Proof.
  inversion 1 as [| | | fileResults results duration Hpaths Hurls _]; subst.
  assert (Forall from_status results) as Hfrom.
  { eapply gather_Forall; [| exact Hurls |].
    - apply processURL_from_status.
    - eapply gather_Forall; [| exact Hpaths | done].
      apply processPath_from_status. }
  apply gather_batches in Hpaths as (fileBatches & Hfiles & ->).
  apply gather_batches in Hurls as (urlBatches & Hpages & ->).
  by exists fileBatches, urlBatches, duration.
Qed.

Lemma runRealLinkChecker_report out :
  cli.runRealLinkChecker w config (Ok out) →
  ∃ merged duration,
    Forall from_status merged ∧ out = cli.report config merged duration.
Proof.
  inversion 1 as [| | | fileResults results duration Hpaths Hurls _]; subst.
  exists results, duration. split; [| done].
  eapply gather_Forall; [| exact Hurls |].
  - apply processURL_from_status.
  - eapply gather_Forall; [| exact Hpaths | done].
    apply processPath_from_status.
Qed.
End cli_facts.

Section report_facts.
(** The summary loop counts every result once. *)
Lemma countValid_total results :
  fst (cli.countValid results) + snd (cli.countValid results)
  = Z.of_nat (length results).
Proof.
  induction results as [|result rest IH]; [done |].
  simpl. destruct (cli.countValid rest) as [valid invalid].
  destruct (String.eqb (cli.Status result) "valid"); simpl in *; lia.
Qed.

Lemma countValid_nonneg results :
  0 ≤ fst (cli.countValid results) ∧ 0 ≤ snd (cli.countValid results).
Proof.
  induction results as [|result rest IH]; [done |].
  simpl. destruct (cli.countValid rest) as [valid invalid].
  destruct (String.eqb (cli.Status result) "valid"); simpl in *; lia.
Qed.

Lemma countValid_none results :
  Forall (λ result, cli.Status result = "invalid") results →
  fst (cli.countValid results) = 0.
Proof.
  induction 1 as [|result rest Hinvalid _ IH]; [done |].
  simpl. destruct (cli.countValid rest) as [valid invalid].
  rewrite Hinvalid. by simpl in *.
Qed.

Lemma elem_of_onlyDead results result :
  result ∈ cli.onlyDead results
  ↔ result ∈ results ∧ cli.Status result = "invalid".
Proof.
  unfold cli.onlyDead. rewrite list_elem_of_filter.
  rewrite Is_true_true, String.eqb_eq. tauto.
Qed.

Lemma onlyDead_invalid results :
  Forall (λ result, cli.Status result = "invalid") (cli.onlyDead results).
Proof. apply Forall_forall. by intros result [_ ?]%elem_of_onlyDead. Qed.

Lemma report_fields config results duration :
  let shown :=
    if cli.OnlyDead config then cli.onlyDead results else results in
  cli.report config results duration
  = {| cli.Results := shown; cli.Total := Z.of_nat (length shown);
       cli.Valid := fst (cli.countValid shown);
       cli.Invalid := snd (cli.countValid shown);
       cli.Duration := duration |}.
Proof.
  unfold cli.report. simpl.
  by destruct (cli.countValid (if cli.OnlyDead config then _ else _)).
Qed.
End report_facts.

Section link_classes.
(** A string with a prefix starts with the prefix's first byte. *)
Lemma HasPrefix_first c s a p :
  HasPrefix (String c s) (String a p) = true → a = c.
Proof.
  unfold HasPrefix. simpl. by destruct (ascii_dec a c).
Qed.

(** No link of the classes [processURL] skips is an HTTP link. *)
Lemma skipLink_not_HTTP link :
  cli.skipLink link = true → validator.isHTTP link = false.
Proof.
  unfold cli.skipLink, validator.isHTTP. destruct link as [|c rest]; [done |].
  intros Hskip. apply orb_false_intro.
  - destruct (HasPrefix (String c rest) "http://") eqn:Hhttp; [| done].
    apply HasPrefix_first in Hhttp as <-.
    by repeat (apply orb_prop in Hskip as [Hskip | Hskip];
               [| by apply HasPrefix_first in Hskip]).
  - destruct (HasPrefix (String c rest) "https://") eqn:Hhttp; [| done].
    apply HasPrefix_first in Hhttp as <-.
    by repeat (apply orb_prop in Hskip as [Hskip | Hskip];
               [| by apply HasPrefix_first in Hskip]).
Qed.

(** The web-page path does skip them: a skipped link adds nothing to the
    links [processURL] validates, and every result of a page comes from a
    link that was not skipped. *)
Lemma absoluteLink_skipped w baseURL link :
  cli.skipLink link = true → cli.absoluteLink w baseURL link = None.
Proof. unfold cli.absoluteLink. by intros ->. Qed.

Lemma processURL_results_not_skipped w config inputURL content baseURL results :
  FetchPage w (cli.Timeout config) inputURL = Ok (Ok content) →
  Parse w inputURL = Ok baseURL →
  cli.processURL w config inputURL (Ok results) →
  ∀ result, result ∈ results →
    ∃ link, link ∈ ExtractLinksFromHTML w content
            ∧ cli.skipLink link = false
            ∧ cli.absoluteLink w baseURL link = Some (cli.URL result).
Proof.
  intros Hpage Hbase Hrun result Hin.
  inversion Hrun as [| | | content' baseURL' sts Hpage' Hbase' Hsts]; subst.
  assert (content' = content ∧ baseURL' = baseURL) as [-> ->]
    by (split; congruence).
  apply list_elem_of_fmap in Hin as (st & -> & Hst).
  destruct (ValidateLinksAsync_checked _ _ _ _ _ _ _ Hsts Hst)
    as (abs & Habs & ->).
  rewrite toResult_URL, statusOf_Link.
  apply list_elem_of_filter in Habs as [_ Habs].
  apply list_elem_of_omap in Habs as (link & Hlink & Hresolved).
  exists link. split_and!; [done | | done].
  destruct (cli.skipLink link) eqn:Hskip; [| done].
  by rewrite absoluteLink_skipped in Hresolved.
Qed.
End link_classes.

(** ** The claims about the pipeline *)

(** C3, on the code.  The markdown path has no skip test: a link of a class
    the web-page path skips (empty, "#...", "javascript:...", "mailto:...",
    "tel:...") that the ignore patterns let through is handed to the pool,
    checked there as a file path under the document's directory, and comes
    back as one of the document's results. *)
Theorem markdown_checks_skipped_links (w : World) (config : cli.Config)
    (filePath : string) (links : list string) (link : string)
    (r : result (list cli.Result)) :
  cli.skipLink link = true →
  ExtractLinksFromFile w filePath = Ok links →
  link ∈ links →
  cli.IsURLIgnored config link = false →
  1 ≤ cli.Workers config →
  cli.processMarkdownFile w config filePath r →
  ∃ results result,
    r = Ok results ∧ result ∈ results
    ∧ cli.URL result = link ∧ cli.Source result = filePath
    ∧ cli.StatusCode result = 0
    ∧ (cli.Status result = "valid"
       ↔ ∃ info,
           Stat w (if IsAbs w link then link
                   else Join w (Dir w filePath) link) = Ok info).
Proof.
  intros Hskip Hread Hlink Hignored Hworkers Hrun.
  destruct Hrun as [e He | links' sts Hread' Hsts]; [congruence |].
  assert (links' = links) as -> by congruence.
  apply ValidateLinksAsync_all in Hsts; [| done].
  pose (status := validator.statusOf w (Dir w filePath) (cli.Timeout config)).
  assert (status link ∈ sts) as Hin.
  { rewrite Hsts. apply list_elem_of_fmap. exists link. split; [done |].
    apply list_elem_of_filter. split; [| done]. by rewrite Hignored. }
  destruct (checkLink_file w (Dir w filePath) (cli.Timeout config) link)
    as (st & Hst & Hname & Hcode & _ & Hvalid & _);
    [by apply skipLink_not_HTTP |].
  rewrite checkLink_returns in Hst. injection Hst as Hst.
  change (status link = st) in Hst. subst st.
  exists (cli.toResult filePath <$> sts), (cli.toResult filePath (status link)).
  split_and!.
  - done.
  - apply list_elem_of_fmap. by exists (status link).
  - by rewrite toResult_URL.
  - by rewrite toResult_Source.
  - unfold cli.toResult. by destruct (validator.Valid (status link)).
  - rewrite <- Hvalid, toResult_Status.
    by destruct (validator.Valid (status link)).
Qed.

(** The anchor of /d/doc.md, checked as the file /d/#section and reported
    broken. *)
Lemma markdown_checks_skipped_links_witness :
  ∃ results result,
    cli.processMarkdownFile sample.docs_world
      (sample.config_for ["/d/doc.md"] [] 10 false) "/d/doc.md" (Ok results)
    ∧ result ∈ results
    ∧ cli.URL result = "#section" ∧ cli.Status result ≠ "valid".
Proof.
  set (config := sample.config_for ["/d/doc.md"] [] 10 false).
  destruct (ValidateLinksAsync_returns sample.docs_world
              ["#section"; "test.md"; "http://host/ok"] "/d"
              (cli.Timeout config) 10) as [sts Hpool].
  assert (cli.processMarkdownFile sample.docs_world config "/d/doc.md"
            (Ok (cli.toResult "/d/doc.md" <$> sts))) as Hrun
    by (eapply cli.markdown_checked; [reflexivity | exact Hpool]).
  destruct (markdown_checks_skipped_links sample.docs_world config "/d/doc.md"
              ["#section"; "test.md"; "http://host/ok"] "#section" _
              eq_refl eq_refl (list_elem_of_here _ _) eq_refl
              ltac:(simpl; lia) Hrun)
    as (results & result & Hresults & Hin & Hurl & _ & _ & Hvalid).
  injection Hresults as <-.
  exists (cli.toResult "/d/doc.md" <$> sts), result.
  split_and!; [done | done | done |].
  intros [info Hinfo]%Hvalid. discriminate Hinfo.
Defined.

(** C8.  With only-dead on, what [runRealLinkChecker] puts out is the merged
    list of all batches filtered once.  The batches are what [processPath]
    returned for each input path, in order, followed by what [processURL]
    returned for each input URL; the results put out are exactly the
    results of the merged batches with status "invalid" (those built from a
    status that is not valid), in their order; the summary is over the
    filtered list: total is its length, valid plus invalid is the total,
    and valid is 0. *)
Theorem only_dead_report (w : World) (config : cli.Config) (out : cli.Output) :
  cli.OnlyDead config = true →
  cli.runRealLinkChecker w config (Ok out) →
  ∃ fileBatches urlBatches merged duration,
    Forall2 (λ inputPath batch, cli.processPath w config inputPath (Ok batch))
      (cli.InputPaths config) fileBatches
    ∧ Forall2 (λ inputURL batch, cli.processURL w config inputURL (Ok batch))
        (cli.InputURLs config) urlBatches
    ∧ merged = concat fileBatches ++ concat urlBatches
    ∧ Forall cli.from_status merged
    ∧ out = cli.report config merged duration
    ∧ cli.Results out = cli.onlyDead merged
    ∧ (∀ source st,
         cli.toResult source st ∈ merged →
         (cli.toResult source st ∈ cli.Results out ↔ validator.Valid st = false))
    ∧ Forall (λ result, cli.Status result = "invalid") (cli.Results out)
    ∧ cli.Total out = Z.of_nat (length (cli.Results out))
    ∧ cli.Valid out + cli.Invalid out = cli.Total out
    ∧ cli.Valid out = 0.
Proof.
  intros Hdead Hrun.
  destruct (runRealLinkChecker_merged w config out Hrun)
    as (fileBatches & urlBatches & duration & Hfiles & Hpages & Hmerged & ->).
  exists fileBatches, urlBatches, (concat fileBatches ++ concat urlBatches),
    duration.
  rewrite report_fields. simpl. rewrite Hdead.
  split_and!; try done.
  - intros source st Hin. rewrite elem_of_onlyDead, toResult_Status.
    destruct (validator.Valid st); intuition (auto; congruence).
  - apply onlyDead_invalid.
  - apply countValid_total.
  - apply countValid_none, onlyDead_invalid.
Qed.

(** Two valid and three invalid results: three are left, all invalid, and
    the summary is total 3, valid 0, invalid 3. *)
Lemma only_dead_report_witness :
  ∃ out,
    cli.runRealLinkChecker sample.five_world
      (sample.config_for ["/d/five.md"] [] 10 true) (Ok out)
    ∧ length (cli.Results out) = 3%nat
    ∧ Forall (λ result, cli.Status result = "invalid") (cli.Results out)
    ∧ cli.Total out = 3 ∧ cli.Valid out = 0 ∧ cli.Invalid out = 3.
Proof.
  set (config := sample.config_for ["/d/five.md"] [] 10 true).
  destruct (ValidateLinksAsync_run_returns sample.five_world sample.five_links
              "/d" (cli.Timeout config) 10) as (sts & Hsts & Hpool).
  set (out := cli.report config (cli.toResult "/d/five.md" <$> sts) "1ms").
  assert (cli.runRealLinkChecker sample.five_world config (Ok out)) as Hrun.
  { apply cli.run_output with (fileResults := cli.toResult "/d/five.md" <$> sts);
      [| apply cli.gather_end | reflexivity].
    eapply cli.gather_next; [| apply cli.gather_end].
    eapply cli.path_markdown; [reflexivity | reflexivity | reflexivity |].
    eapply cli.markdown_checked; [reflexivity | exact Hpool]. }
  exists out. split; [exact Hrun |].
  destruct (only_dead_report sample.five_world config out eq_refl Hrun)
    as (fileBatches & urlBatches & merged & duration & _ & _ & _ & _ & _ & _ & _
        & Hinvalid & Htotal & Hsum & Hvalid).
  assert (length (cli.Results out) = 3%nat) as Hlen
    by (vm_compute in Hsts; injection Hsts as <-; reflexivity).
  rewrite Hlen in Htotal. split_and!; [done | done | done | done | lia].
Defined.

(** C10.  No result of the pipeline has a line number: [Line] is 0 in every
    result of [processMarkdownFile] and of [processURL], and so in every
    result of the output of [runRealLinkChecker] and of [runLinkChecker]. *)
Theorem results_have_no_line (w : World) (config : cli.Config) :
  (∀ filePath results,
     cli.processMarkdownFile w config filePath (Ok results) →
     Forall (λ result, cli.Line result = 0) results)
  ∧ (∀ inputURL results,
       cli.processURL w config inputURL (Ok results) →
       Forall (λ result, cli.Line result = 0) results)
  ∧ (∀ out,
       cli.runRealLinkChecker w config (Ok out) →
       Forall (λ result, cli.Line result = 0) (cli.Results out))
  ∧ (∀ args out,
       cli.runLinkChecker w config args (Ok out) →
       Forall (λ result, cli.Line result = 0) (cli.Results out)).
Proof.
  assert (∀ results, Forall cli.from_status results →
                     Forall (λ result, cli.Line result = 0) results) as Hline.
  { intros results Hfrom.
    eapply Forall_impl; [exact Hfrom | apply from_status_Line]. }
  assert (∀ config' out,
            cli.runRealLinkChecker w config' (Ok out) →
            Forall (λ result, cli.Line result = 0) (cli.Results out)) as Hreal.
  { intros config' out Hrun.
    destruct (runRealLinkChecker_report w config' out Hrun)
      as (merged & duration & Hmerged & ->).
    rewrite report_fields. simpl. apply Hline.
    destruct (cli.OnlyDead config'); [| done].
    apply Forall_forall. intros result [Hin _]%elem_of_onlyDead.
    by eapply Forall_forall in Hmerged. }
  split_and!.
  - intros filePath results Hrun.
    by eapply Hline, processMarkdownFile_from_status.
  - intros inputURL results Hrun. by eapply Hline, processURL_from_status.
  - apply Hreal.
  - intros args out Hrun. inversion Hrun; subst. by eapply Hreal.
Qed.

Lemma results_have_no_line_witness :
  ∃ results,
    cli.processMarkdownFile sample.docs_world
      (sample.config_for ["/d/doc.md"] [] 10 false) "/d/doc.md" (Ok results)
    ∧ length results = 3%nat
    ∧ Forall (λ result, cli.Line result = 0) results.
Proof.
  set (config := sample.config_for ["/d/doc.md"] [] 10 false).
  destruct (ValidateLinksAsync_returns sample.docs_world
              ["#section"; "test.md"; "http://host/ok"] "/d"
              (cli.Timeout config) 10) as [sts Hpool].
  assert (cli.processMarkdownFile sample.docs_world config "/d/doc.md"
            (Ok (cli.toResult "/d/doc.md" <$> sts))) as Hrun
    by (eapply cli.markdown_checked; [reflexivity | exact Hpool]).
  exists (cli.toResult "/d/doc.md" <$> sts). split_and!.
  - exact Hrun.
  - apply ValidateLinksAsync_all in Hpool; [| simpl; lia].
    by rewrite length_fmap, Hpool, length_fmap.
  - by apply (results_have_no_line sample.docs_world config) in Hrun.
Defined.

(** * Further properties of the code *)

(** ** The pool, for every worker count *)

Section pool_more.
Import validator.
Variable w : World.
Variable links : list string.
Variable basePath : string.
Variables timeout maxWorkers : Z.

Local Abbreviation step := (validator.step w links basePath timeout maxWorkers).
Local Abbreviation inv := (pool_inv w links basePath timeout maxWorkers).
Local Abbreviation status := (statusOf w basePath timeout).
Local Abbreviation remaining := (steps_left links maxWorkers).

Lemma pool_inv_nsteps n s : nsteps step n (pool_init links) s → inv s.
Proof. intros Hrun. eapply pool_inv_reachable, rtc_nsteps. eauto. Qed.

(** A run of [n] transitions has used up [n] of the bound. *)
Lemma steps_left_nsteps n : ∀ s,
  nsteps step n (pool_init links) s →
  Z.of_nat n + remaining s ≤ remaining (pool_init links).
Proof.
  induction n as [|n IH]; intros s Hrun.
  - inversion Hrun; subst. lia.
  - apply nsteps_inv_r in Hrun as (s1 & Hrun & Hstep).
    pose proof (IH s1 Hrun).
    pose proof (steps_left_step _ _ _ _ _ _ _ (pool_inv_nsteps _ _ Hrun) Hstep).
    lia.
Qed.

(** Everything in the pool adds up to the input. *)
Lemma pool_counts s :
  inv s →
  (length (results s) + length (buf (resultChan s))
   + length (held (workers s)) + length (buf (linkChan s))
   + length (pending links (sender s)) = length links)%nat.
Proof.
  intros Hinv.
  pose proof (Permutation_length (inv_conserved _ _ _ _ _ _ Hinv)) as Hlen.
  rewrite !length_app, !length_fmap, length_app in Hlen. lia.
Qed.

Lemma held_sending ws i st :
  ws !! i = Some (WSend st) → (1 ≤ length (held ws))%nat.
Proof.
  intros (before & after & -> & _)%workers_split.
  rewrite held_app, length_app. simpl. lia.
Qed.

(** The sender's next send finds room on [linkChan]. *)
Lemma sender_has_room s link rest :
  inv s → sender s = SSending (link :: rest) →
  chan_has_room (linkChan s) = true.
Proof.
  intros Hinv Hsender. pose proof (pool_counts s Hinv) as Hcount.
  rewrite Hsender in Hcount. simpl in Hcount.
  unfold chan_has_room. rewrite (inv_link_cap _ _ _ _ _ _ Hinv).
  apply Nat.ltb_lt. lia.
Qed.

(** A worker's send finds [resultChan] open and with room. *)
Lemma worker_has_room s i st :
  inv s → workers s !! i = Some (WSend st) →
  closed (resultChan s) = false ∧ chan_has_room (resultChan s) = true.
Proof.
  intros Hinv Hi. split.
  - rewrite (inv_result_closed _ _ _ _ _ _ Hinv).
    destruct (closer s) eqn:Hcloser; try done.
    by pose proof (closer_done_worker _ _ _ _ _ _ _ _ Hinv Hcloser Hi).
  - pose proof (pool_counts s Hinv) as Hcount.
    pose proof (held_sending _ _ _ Hi).
    unfold chan_has_room. rewrite (inv_result_cap _ _ _ _ _ _ Hinv).
    apply Nat.ltb_lt. lia.
Qed.

Lemma workers_bounded s :
  inv s → Z.of_nat (length (workers s)) ≤ Z.max 0 maxWorkers.
Proof.
  intros Hinv. pose proof (inv_main _ _ _ _ _ _ Hinv) as Hmain.
  unfold main_inv in Hmain. destruct (main s); lia.
Qed.

Lemma single_worker (ws : list WorkerPc) i p :
  (length ws ≤ 1)%nat → ws !! i = Some p → ws = [p] ∧ i = 0%nat.
Proof.
  destruct ws as [|q [|q' ws]]; simpl; intros Hlen Hi; try done; try lia.
  destruct i as [|i]; simpl in Hi; [| done]. by injection Hi as ->.
Qed.

(** With at most one worker the statuses keep the order of the links all the
    way: collected, on [resultChan], held, and the links still to check. *)
Local Abbreviation ordered s :=
  (results s ++ buf (resultChan s) ++ held (workers s)
     ++ (status <$> (buf (linkChan s) ++ pending links (sender s)))
   = status <$> links).

Lemma ordered_init : ordered (pool_init links).
Proof. done. Qed.

Lemma ordered_step s s' :
  maxWorkers ≤ 1 → inv s → ordered s → step s s' → ordered s'.
Proof.
  intros Hone Hinv Hord [a Hstep].
  pose proof (workers_bounded s Hinv) as Hlen.
  assert (length (workers s) ≤ 1)%nat as Hws by lia. clear Hlen.
  unfold validator.step_of in Hstep.
  rewrite (inv_panicked _ _ _ _ _ _ Hinv) in Hstep.
  pose proof (inv_main _ _ _ _ _ _ Hinv) as Hmain. unfold main_inv in Hmain.
  destruct a as [| | |i].
  - unfold main_step in Hstep. destruct (main s) as [k | | | |] eqn:Hpc.
    + destruct (k <? maxWorkers); injection Hstep as <-; simpl; [| done].
      by rewrite held_app, app_nil_r.
    + destruct Hmain as (_ & Hsender & _). injection Hstep as <-. simpl.
      by rewrite Hsender in Hord.
    + by injection Hstep as <-.
    + destruct (buf (resultChan s)) as [|r rest] eqn:Hbuf.
      * destruct (closed (resultChan s)); [| done]. injection Hstep as <-.
        simpl. by rewrite Hbuf.
      * injection Hstep as <-. simpl. rewrite Hbuf. simpl.
        by rewrite <- Hord, <- !app_assoc.
    + done.
  - unfold sender_step in Hstep.
    destruct (sender s) as [|[|link rest]|] eqn:Hsender; try done.
    + by injection Hstep as <-.
    + destruct (chan_has_room (linkChan s)); [| done]. injection Hstep as <-.
      simpl. by rewrite <- (app_assoc _ [link]).
  - unfold closer_step in Hstep. destruct (closer s); try done.
    destruct (wg s =? 0); [| done]. by injection Hstep as <-.
  - unfold worker_step in Hstep.
    destruct (workers s !! i) as [p|] eqn:Hi; [| done].
    destruct (single_worker _ _ _ Hws Hi) as [Hone' ->].
    rewrite Hone' in *. clear Hi.
    destruct p as [|st|]; [| | done].
    + destruct (buf (linkChan s)) as [|link rest] eqn:Hbuf.
      * destruct (closed (linkChan s)); [| done]. injection Hstep as <-.
        simpl. rewrite ?Hone', ?Hbuf. simpl. by rewrite ?Hbuf in Hord.
      * rewrite checkLink_returns in Hstep. injection Hstep as <-.
        simpl. rewrite ?Hone', ?Hbuf. simpl. by rewrite ?Hbuf in Hord.
    + destruct (closed (resultChan s)).
      * injection Hstep as <-. simpl. by rewrite Hone'.
      * destruct (chan_has_room (resultChan s)); [| done].
        injection Hstep as <-. simpl. rewrite ?Hone'. simpl.
        by rewrite <- Hord, <- !app_assoc.
Qed.

Lemma ordered_reachable s :
  maxWorkers ≤ 1 → rtc step (pool_init links) s → ordered s.
Proof.
  intros Hone Hrun. apply rtc_nsteps in Hrun as [n Hrun].
  revert s Hrun. induction n as [|n IH]; intros s Hrun.
  - inversion Hrun; subst. apply ordered_init.
  - apply nsteps_inv_r in Hrun as (s1 & Hrun & Hstep).
    eapply ordered_step; eauto using pool_inv_nsteps.
Qed.

(** When [resultChan] is closed, every worker has returned; with a worker
    in the pool, every link has been sent, received and checked by then. *)
Lemma pool_closed_facts s :
  inv s → closed (resultChan s) = true →
  active (workers s) = []
  ∧ (1 ≤ maxWorkers →
     held (workers s) = [] ∧ buf (linkChan s) = []
     ∧ pending links (sender s) = []).
Proof.
  intros Hinv Hclosed.
  destruct Hinv
    as [Hpanic Hlcap Hrcap Hcons Hwg Hmain Hlclosed Hrclosed Hcdone Hret Hnone].
  rewrite Hrclosed in Hclosed.
  destruct (closer s) eqn:Hcloser; try done.
  specialize (Hcdone eq_refl). split; [done |]. intros Hworkers.
  assert (Z.of_nat (length (workers s)) = Z.max 0 maxWorkers) as Hlen.
  { unfold main_inv in Hmain. destruct (main s); intuition congruence. }
  destruct (workers s) as [|p ws] eqn:Hws; [simpl in Hlen; lia |].
  assert (p = WDone) as -> by (by eapply (active_nil (p :: ws) 0)).
  destruct (Hret 0%nat) as [Hsdone Hlbuf]; [done |].
  rewrite Hsdone. split_and!; [by apply held_nil | done | done].
Qed.
End pool_more.

Section schedules.
Import validator.

Lemma run_schedule_reaches w links basePath timeout maxWorkers schedule :
  ∀ s s',
    run_schedule w links basePath timeout maxWorkers schedule s = Some s' →
    rtc (validator.step w links basePath timeout maxWorkers) s s'.
Proof.
  induction schedule as [|a rest IH]; intros s s'; simpl.
  - intros [= <-]. apply rtc_refl.
  - destruct (step_of w links basePath timeout maxWorkers a s) as [s1|] eqn:Ha;
      [| done].
    intros Hrest. eapply rtc_l; [by exists a | by apply IH].
Qed.

Lemma swap_schedule_runs w l1 l2 basePath timeout :
  ∃ s,
    run_schedule w [l1; l2] basePath timeout 2 swap_schedule (pool_init [l1; l2])
    = Some s
    ∧ main s = MReturned
    ∧ results s = [statusOf w basePath timeout l2; statusOf w basePath timeout l1].
Proof.
  unfold swap_schedule.
  lazy -[checkLink statusOf]. rewrite !checkLink_returns.
  lazy -[checkLink statusOf]. eexists. by split_and!.
Qed.
End schedules.

(** Whatever the worker count (zero, negative, larger than the number of
    links), a run of the pool makes at most
    [2 * max(0, maxWorkers) + 4 * len(links) + 7] transitions, never sends
    on a closed channel, and for a non-empty input is never stuck before
    [main] returns. *)
Theorem pool_runs_bounded (w : World) (links : list string)
    (basePath : string) (timeout maxWorkers : Z) (n : nat)
    (s : validator.Pool) :
  nsteps (validator.step w links basePath timeout maxWorkers) n
    (validator.pool_init links) s →
  Z.of_nat n ≤ 2 * Z.max 0 maxWorkers + 4 * Z.of_nat (length links) + 7
  ∧ validator.panicked s = false
  ∧ (links ≠ [] →
     validator.main s = validator.MReturned
     ∨ ∃ s', validator.step w links basePath timeout maxWorkers s s').
Proof.
  intros Hrun. pose proof (pool_inv_nsteps _ _ _ _ _ _ _ Hrun) as Hinv.
  split_and!.
  - pose proof (steps_left_nsteps _ _ _ _ _ _ _ Hrun) as Hleft.
    pose proof (steps_left_nonneg links maxWorkers s).
    unfold validator.steps_left in Hleft at 2. simpl in Hleft. lia.
  - apply Hinv.
  - intros Hlinks. destruct (validator.main s) eqn:Hpc; auto; right;
      apply pool_progress; auto; congruence.
Qed.

Lemma pool_runs_bounded_witness :
  ∃ n s,
    nsteps (validator.step sample.docs_world ["test.md"; "missing.md"] "/d" 30 5)
      n (validator.pool_init ["test.md"; "missing.md"]) s
    ∧ validator.main s = validator.MReturned
    ∧ Z.of_nat n ≤ 25.
Proof.
  pose proof (run_reaches sample.docs_world ["test.md"; "missing.md"] "/d" 30 5
                25 (validator.pool_init ["test.md"; "missing.md"])) as Hrun.
  apply rtc_nsteps in Hrun as [n Hrun].
  exists n, (validator.run sample.docs_world ["test.md"; "missing.md"] "/d" 30 5
               25 (validator.pool_init ["test.md"; "missing.md"])).
  split_and!; [exact Hrun | reflexivity |].
  by apply (pool_runs_bounded _ _ _ _ _ _ _ Hrun).
Defined.

(** The channels are large enough: in no state of a run does the sender find
    [linkChan] full or a worker find [resultChan] full or closed; a sender
    with a link to send and a worker with a status to send can always make
    the send. *)
Theorem pool_sends_never_block (w : World) (links : list string)
    (basePath : string) (timeout maxWorkers : Z) (s : validator.Pool) :
  rtc (validator.step w links basePath timeout maxWorkers)
    (validator.pool_init links) s →
  (∀ link rest,
     validator.sender s = validator.SSending (link :: rest) →
     ∃ s', validator.sender_step s = Some s'
           ∧ validator.buf (validator.linkChan s')
             = validator.buf (validator.linkChan s) ++ [link])
  ∧ (∀ i st,
       validator.workers s !! i = Some (validator.WSend st) →
       ∃ s', validator.worker_step w basePath timeout i s = Some s'
             ∧ validator.panicked s' = false
             ∧ validator.buf (validator.resultChan s')
               = validator.buf (validator.resultChan s) ++ [st]).
Proof.
  intros Hinv%pool_inv_reachable. split.
  - intros link rest Hsender. unfold validator.sender_step.
    rewrite Hsender, (sender_has_room _ _ _ _ _ _ _ _ Hinv Hsender). eauto.
  - intros i st Hi. unfold validator.worker_step. rewrite Hi.
    destruct (worker_has_room _ _ _ _ _ _ _ _ Hinv Hi) as [-> ->].
    eexists. split_and!; [done | | done]. apply Hinv.
Qed.

Lemma pool_sends_never_block_witness :
  ∃ s',
    validator.sender_step
      (validator.run sample.docs_world ["test.md"; "missing.md"] "/d" 30 1 4
         (validator.pool_init ["test.md"; "missing.md"])) = Some s'
    ∧ validator.buf (validator.linkChan s') = ["test.md"].
Proof.
  destruct (pool_sends_never_block sample.docs_world ["test.md"; "missing.md"]
              "/d" 30 1 _ (run_reaches _ _ _ _ _ 4 _)) as [Hsender _].
  destruct (Hsender "test.md" ["missing.md"] eq_refl) as (s' & Hs' & Hbuf).
  exists s'. split; [exact Hs' | exact Hbuf].
Defined.

(** [resultChan] is closed only once every worker has returned; with at
    least one worker, every status has been produced by then: the statuses
    collected and those still on [resultChan] are, together, the statuses of
    all the links. *)
Theorem results_complete_at_close (w : World) (links : list string)
    (basePath : string) (timeout maxWorkers : Z) (s : validator.Pool) :
  rtc (validator.step w links basePath timeout maxWorkers)
    (validator.pool_init links) s →
  validator.closed (validator.resultChan s) = true →
  (∀ i p, validator.workers s !! i = Some p → p = validator.WDone)
  ∧ (1 ≤ maxWorkers →
     validator.results s ++ validator.buf (validator.resultChan s)
     ≡ₚ validator.statusOf w basePath timeout <$> links).
Proof.
  intros Hinv%pool_inv_reachable Hclosed.
  destruct (pool_closed_facts _ _ _ _ _ _ Hinv Hclosed) as [Hdone Hall].
  split.
  - intros i p. by apply active_nil.
  - intros Hworkers. destruct (Hall Hworkers) as (Hheld & Hlbuf & Hpending).
    pose proof (validator.inv_conserved _ _ _ _ _ _ Hinv) as Hcons.
    rewrite Hheld, Hlbuf, Hpending in Hcons. simpl in Hcons.
    by rewrite app_nil_r in Hcons.
Qed.

Lemma results_complete_at_close_witness :
  let s := validator.run sample.docs_world ["test.md"; "missing.md"] "/d" 30 2
             17 (validator.pool_init ["test.md"; "missing.md"]) in
  validator.closed (validator.resultChan s) = true
  ∧ validator.main s = validator.MCollect
  ∧ validator.results s ++ validator.buf (validator.resultChan s)
    ≡ₚ validator.statusOf sample.docs_world "/d" 30
         <$> ["test.md"; "missing.md"].
Proof.
  split_and!; [reflexivity | reflexivity |].
  by apply (results_complete_at_close sample.docs_world
              ["test.md"; "missing.md"] "/d" 30 2 _ (run_reaches _ _ _ _ _ 17 _)).
Defined.

(** With one worker the pool is sequential: the call returns the statuses in
    the order of the links. *)
Theorem single_worker_keeps_order (w : World) (links : list string)
    (basePath : string) (timeout : Z) (rs : list validator.LinkStatus) :
  validator.ValidateLinksAsync w links basePath timeout 1 rs →
  rs = validator.statusOf w basePath timeout <$> links.
Proof.
  intros Hrs. destruct Hrs as [-> | s Hlinks Hrun Hret]; [done |].
  pose proof (ordered_reachable w links basePath timeout 1 s ltac:(lia) Hrun)
    as Hord.
  pose proof (pool_inv_reachable _ _ _ _ _ _ Hrun) as Hinv.
  pose proof (validator.inv_main _ _ _ _ _ _ Hinv) as Hmain.
  unfold validator.main_inv in Hmain. rewrite Hret in Hmain.
  destruct Hmain as (_ & _ & Hcloser & Hrbuf).
  pose proof (validator.inv_result_closed _ _ _ _ _ _ Hinv) as Hclosed.
  rewrite Hcloser in Hclosed.
  destruct (pool_closed_facts _ _ _ _ _ _ Hinv Hclosed) as [_ Hall].
  destruct (Hall ltac:(lia)) as (Hheld & Hlbuf & Hpending).
  rewrite Hrbuf, Hheld, Hlbuf, Hpending in Hord. simpl in Hord.
  by rewrite app_nil_r in Hord.
Qed.

Lemma single_worker_keeps_order_witness :
  ∃ rs,
    validator.ValidateLinksAsync sample.five_world sample.five_links "/d" 30 1 rs
    ∧ validator.Link <$> rs = sample.five_links.
Proof.
  destruct (ValidateLinksAsync_returns sample.five_world sample.five_links
              "/d" 30 1) as [rs Hrs].
  exists rs. split; [exact Hrs |].
  by rewrite (single_worker_keeps_order _ _ _ _ _ Hrs).
Defined.

(** With two workers the order is not kept in general: for any two links
    there is a run that returns the second link's status first. *)
Theorem two_workers_may_swap (w : World) (l1 l2 basePath : string)
    (timeout : Z) :
  validator.ValidateLinksAsync w [l1; l2] basePath timeout 2
    [validator.statusOf w basePath timeout l2;
     validator.statusOf w basePath timeout l1].
Proof.
  destruct (swap_schedule_runs w l1 l2 basePath timeout)
    as (s & Hrun & Hret & <-).
  constructor; [done | by eapply run_schedule_reaches | done].
Qed.

(** [ValidateLinks] and [ValidateLinksWithTimeout], with their 10 workers,
    return for every list of links, shorter than 10 or empty as well, and
    return one status per link: a permutation of the links' statuses. *)
Theorem ValidateLinks_one_status_per_link (w : World) (links : list string)
    (basePath : string) (timeout : Z) :
  (∃ rs, validator.ValidateLinks w links basePath rs)
  ∧ (∀ rs, validator.ValidateLinks w links basePath rs →
       rs ≡ₚ validator.statusOf w basePath (30 * 1000000000) <$> links
       ∧ length rs = length links)
  ∧ (∃ rs, validator.ValidateLinksWithTimeout w links basePath timeout rs)
  ∧ (∀ rs, validator.ValidateLinksWithTimeout w links basePath timeout rs →
       rs ≡ₚ validator.statusOf w basePath timeout <$> links
       ∧ length rs = length links).
Proof.
  unfold validator.ValidateLinks, validator.ValidateLinksWithTimeout.
  split_and!; try apply ValidateLinksAsync_returns;
    intros rs Hrs%ValidateLinksAsync_all; try lia;
    (split; [done | by rewrite Hrs, length_fmap]).
Qed.

Lemma ValidateLinks_one_status_per_link_witness :
  ∃ rs,
    validator.ValidateLinks sample.docs_world ["test.md"; "notfound.md"] "/d" rs
    ∧ length rs = 2%nat.
Proof.
  destruct (ValidateLinks_one_status_per_link sample.docs_world
              ["test.md"; "notfound.md"] "/d" 0) as ([rs Hrs] & Hall & _).
  exists rs. split; [exact Hrs |]. by apply Hall.
Defined.

(** ** Redirects below the cap *)

Lemma client_do_follows send r : ∀ k fuel via url,
  validator.nth_response send url k = Some r →
  shouldRedirect (RespStatusCode r) = false ∨ RespLocation r = None →
  (via + k ≤ 9)%nat → (k < fuel)%nat →
  client_do fuel validator.CheckRedirect send url via = Some (Ok r).
Proof.
  induction k as [|k IH]; intros fuel via url Hnth Hlast Hvia Hfuel;
    (destruct fuel as [|fuel]; [lia |]); simpl in *;
    destruct (send url) as [resp | e]; try done.
  - injection Hnth as ->. by destruct Hlast as [-> | ->]; [| destruct (shouldRedirect _)].
  - destruct (shouldRedirect (RespStatusCode resp)); [| done].
    destruct (RespLocation resp) as [[loc' | e] |]; [| done ..].
    rewrite CheckRedirect_follow by lia.
    apply IH; auto; lia.
Qed.

(** A chain of at most nine redirects is followed to its end: when the
    answer to request [k + 1] (with [k <= 9]) of the HEAD's chain is the
    first that is not a redirect to follow, the check's verdict is the
    verdict of that answer. *)
Theorem redirects_followed_to_the_end (w : World) (url : string) (timeout : Z)
    (k : nat) (resp : Response) :
  (k ≤ 9)%nat →
  validator.nth_response (transport w timeout HEAD) url k = Some resp →
  shouldRedirect (RespStatusCode resp) = false ∨ RespLocation resp = None →
  validator.client_Head w timeout url = Some (Ok resp)
  ∧ validator.checkHTTP w url timeout = Some (validator.classifyResponse resp).
Proof.
  intros Hk Hchain Hlast.
  assert (validator.client_Head w timeout url = Some (Ok resp)) as Hhead.
  { eapply client_do_follows; eauto; unfold validator.requestBudget; lia. }
  split; [done |]. unfold validator.checkHTTP. by rewrite Hhead.
Qed.

Lemma redirects_followed_to_the_end_witness :
  validator.checkHTTP (sample.world (sample.redirect_chain 9) [] [] [])
    "http://host/" 30 = Some (true, "", 200).
Proof.
  apply (redirects_followed_to_the_end
           (sample.world (sample.redirect_chain 9) [] [] []) "http://host/" 30 9
           (sample.response 200 "200 OK")); [lia | reflexivity | by left].
Defined.

(** ** Ignore patterns *)

Section patterns.
Import cli.

Lemma has_byte_app a b c :
  has_byte (a +:+ b) c = has_byte a c || has_byte b c.
Proof.
  induction a as [|d a IH]; simpl; [done |].
  by rewrite IH, orb_assoc.
Qed.

(** The bytes [regexp.QuoteMeta] escapes are among those
    [compileIgnorePatterns] looks for. *)
Lemma quoted_is_special c :
  has_byte "\.+*?()|[]{}^$" c = true → has_byte ".*+?^${}[]|()\" c = true.
Proof.
  simpl. intros H.
  repeat (apply orb_prop in H as [H | H]; [rewrite H, ?orb_true_r; done |]).
  done.
Qed.

Lemma ContainsAny_false s chars :
  ContainsAny s chars = false ↔ ∀ c, has_byte s c = true → has_byte chars c = false.
Proof.
  induction s as [|d s IH]; simpl; [done |].
  rewrite orb_false_iff, IH. split.
  - intros [Hd Hs] c [Hc | Hc]%orb_prop; [| by apply Hs].
    apply Ascii.eqb_eq in Hc as ->. done.
  - intros Hall. split.
    + apply Hall. by rewrite Ascii.eqb_refl.
    + intros c Hc. apply Hall. by rewrite Hc, orb_true_r.
Qed.

Lemma QuoteMeta_plain s :
  ContainsAny s ".*+?^${}[]|()\" = false → QuoteMeta s = s.
Proof.
  induction s as [|c s IH]; [done |].
  intros [Hc Hs]%orb_false_iff. cbn [QuoteMeta].
  destruct (has_byte "\.+*?()|[]{}^$" c) eqn:Hq.
  - apply quoted_is_special in Hq. congruence.
  - by rewrite IH.
Qed.

Lemma ReplaceAll_absent s old new :
  has_byte s old = false → ReplaceAll s old new = s.
Proof.
  induction s as [|c s IH]; simpl; [done |].
  rewrite Ascii.eqb_sym. intros [-> Hs]%orb_false_iff. by rewrite IH.
Qed.

Lemma ReplaceAll_gone s old new :
  has_byte new old = false → has_byte (ReplaceAll s old new) old = false.
Proof.
  intros Hnew. induction s as [|c s IH]; simpl; [done |].
  destruct (Ascii.eqb c old) eqn:Hc.
  - by rewrite has_byte_app, Hnew, IH.
  - simpl. by rewrite Ascii.eqb_sym, Hc, IH.
Qed.

Lemma QuoteMeta_keeps s c :
  Ascii.eqb c "\" = false → has_byte s c = false →
  has_byte (QuoteMeta s) c = false.
Proof.
  intros Hc. induction s as [|d s IH]; [done |].
  cbn [QuoteMeta]. intros Hds.
  change (Ascii.eqb c d || has_byte s c = false) in Hds.
  apply orb_false_iff in Hds as [Hd Hs].
  destruct (has_byte "\.+*?()|[]{}^$" d); cbn [has_byte];
    by rewrite ?Hc, Hd, IH.
Qed.
End patterns.

(** What [compileIgnorePatterns] compiles for a pattern: for a pattern with
    none of the bytes [.*+?^${}[]|()\] the pattern itself between [.*] and
    [.*]; for any other pattern without [*] and [?] the pattern unchanged,
    as a regular expression. *)
Theorem regexPattern_cases (pattern : string) :
  (cli.ContainsAny pattern ".*+?^${}[]|()\" = false →
   cli.regexPattern pattern = ".*" +:+ pattern +:+ ".*")
  ∧ (cli.ContainsAny pattern ".*+?^${}[]|()\" = true →
     cli.has_byte pattern "*" = false → cli.has_byte pattern "?" = false →
     cli.regexPattern pattern = pattern).
Proof.
  unfold cli.regexPattern. split.
  - intros Hplain. by rewrite Hplain, QuoteMeta_plain.
  - intros -> Hstar Hmark. simpl.
    rewrite (ReplaceAll_absent pattern "*") by done.
    by rewrite ReplaceAll_absent.
Qed.

Lemma regexPattern_cases_witness :
  cli.regexPattern "localhost" = ".*localhost.*"
  ∧ cli.regexPattern "example.com" = "example.com".
Proof.
  split.
  - by apply (regexPattern_cases "localhost").
  - by apply (regexPattern_cases "example.com").
Defined.

(** No compiled expression contains a question mark: every [?] of a pattern
    is replaced by [.], so an optional or lazy quantifier written in a
    pattern is never what is compiled. *)
Theorem regexPattern_no_question_mark (pattern : string) :
  cli.has_byte (cli.regexPattern pattern) "?" = false.
Proof.
  unfold cli.regexPattern.
  destruct (cli.ContainsAny pattern ".*+?^${}[]|()\") eqn:Hspecial; simpl.
  - by apply ReplaceAll_gone.
  - change (String "." (String "*" (cli.QuoteMeta pattern +:+ ".*")))
      with (".*" +:+ (cli.QuoteMeta pattern +:+ ".*")).
    rewrite !has_byte_app. simpl.
    rewrite QuoteMeta_keeps; [done | done |].
    destruct (cli.has_byte pattern "?") eqn:Hmark; [| done].
    pose proof (proj1 (ContainsAny_false _ _) Hspecial "?"%char Hmark) as Hno.
    by vm_compute in Hno.
Qed.

Section compile.
Import cli.
Variable w : World.

Lemma compilePatterns_Ok patterns : ∀ acc rs,
  compilePatterns w patterns acc = Ok rs ↔
  ∃ new, rs = acc ++ new
         ∧ Forall2 (λ p r, Compile w (regexPattern p) = Ok r) patterns new.
Proof.
  induction patterns as [|p patterns IH]; intros acc rs; simpl.
  - split.
    + intros [= <-]. exists []. by rewrite app_nil_r.
    + intros (new & -> & ->%Forall2_nil_inv_l). by rewrite app_nil_r.
  - destruct (Compile w (regexPattern p)) as [regex | e] eqn:Hp.
    + rewrite IH. split.
      * intros (new & -> & Hnew). exists (regex :: new).
        rewrite <- app_assoc. split; [done | by constructor].
      * intros (new & -> & Hnew).
        apply Forall2_cons_inv_l in Hnew as (r & new' & Hr & Hnew' & ->).
        assert (r = regex) as -> by congruence.
        exists new'. by rewrite <- app_assoc.
    + split; [done |]. intros (new & _ & Hnew).
      apply Forall2_cons_inv_l in Hnew as (r & new' & Hr & _). congruence.
Qed.

Lemma compilePatterns_Err patterns : ∀ acc e,
  compilePatterns w patterns acc = Err e →
  ∃ before p after e',
    patterns = before ++ p :: after
    ∧ Forall (λ q, ∃ r, Compile w (regexPattern q) = Ok r) before
    ∧ Compile w (regexPattern p) = Err e'
    ∧ e = "invalid ignore pattern '" +:+ p +:+ "': " +:+ e'.
Proof.
  induction patterns as [|p patterns IH]; intros acc e; simpl; [done |].
  destruct (Compile w (regexPattern p)) as [regex | e'] eqn:Hp.
  - intros (before & q & after & e'' & -> & Hbefore & Hq & ->)%IH.
    exists (p :: before), q, after, e''. split_and!; try done.
    constructor; eauto.
  - intros [= <-]. exists [], p, patterns, e'. by split_and!.
Qed.
End compile.

(** [compileIgnorePatterns] compiles the patterns in order: it succeeds
    exactly when every pattern's expression compiles, with one compiled
    expression per pattern, in the order of the patterns; it fails at the
    first pattern whose expression does not compile, with a message that
    quotes that pattern. *)
Theorem compileIgnorePatterns_in_order (w : World) (config : cli.Config) :
  (∀ regexes,
     cli.compileIgnorePatterns w config = Ok regexes ↔
     Forall2 (λ p r, Compile w (cli.regexPattern p) = Ok r)
       (cli.IgnoreList config) regexes)
  ∧ (∀ e,
       cli.compileIgnorePatterns w config = Err e →
       ∃ before p after e',
         cli.IgnoreList config = before ++ p :: after
         ∧ Forall (λ q, ∃ r, Compile w (cli.regexPattern q) = Ok r) before
         ∧ Compile w (cli.regexPattern p) = Err e'
         ∧ e = "invalid ignore pattern '" +:+ p +:+ "': " +:+ e').
Proof.
  unfold cli.compileIgnorePatterns. split.
  - intros regexes. rewrite compilePatterns_Ok. split.
    + by intros (new & -> & Hnew).
    + intros Hall. by exists regexes.
  - intros e. apply compilePatterns_Err.
Qed.

Lemma compileIgnorePatterns_in_order_witness :
  ∃ regexes,
    cli.compileIgnorePatterns sample.docs_world
      {| cli.Recursive := false; cli.IgnoreList := ["localhost"; "*.test"];
         cli.Timeout := 30; cli.OnlyDead := false; cli.Format := "text";
         cli.InputPaths := []; cli.InputURLs := []; cli.IgnoreRegex := [];
         cli.Workers := 10; cli.Debug := false |} = Ok regexes
    ∧ length regexes = 2%nat.
Proof.
  set (config := {| cli.Recursive := false;
                    cli.IgnoreList := ["localhost"; "*.test"];
                    cli.Timeout := 30; cli.OnlyDead := false;
                    cli.Format := "text"; cli.InputPaths := [];
                    cli.InputURLs := []; cli.IgnoreRegex := [];
                    cli.Workers := 10; cli.Debug := false |}).
  destruct (cli.compileIgnorePatterns sample.docs_world config)
    as [regexes | e] eqn:Hcompile; [| discriminate Hcompile].
  exists regexes. split; [done |].
  apply (compileIgnorePatterns_in_order sample.docs_world config) in Hcompile.
  by apply Forall2_length in Hcompile.
Defined.

(** [runLinkChecker] sorts its arguments: with no argument the only input is
    the path "."; otherwise every argument is an input exactly once, among
    the URLs when [isURL] holds of it and among the paths when not, and both
    lists keep the order of the arguments.  Nothing else of the
    configuration changes. *)
Theorem withArgs_sorts_arguments (w : World) (args : list string)
    (config : cli.Config) :
  (args = [] →
   cli.InputPaths (cli.withArgs w args config) = ["."]
   ∧ cli.InputURLs (cli.withArgs w args config) = cli.InputURLs config)
  ∧ (args ≠ [] →
     cli.InputURLs (cli.withArgs w args config)
     = filter (λ arg, cli.isURL w arg) args
     ∧ cli.InputPaths (cli.withArgs w args config)
       = filter (λ arg, negb (cli.isURL w arg)) args
     ∧ cli.InputPaths (cli.withArgs w args config)
         ++ cli.InputURLs (cli.withArgs w args config) ≡ₚ args)
  ∧ cli.Workers (cli.withArgs w args config) = cli.Workers config
  ∧ cli.Timeout (cli.withArgs w args config) = cli.Timeout config
  ∧ cli.OnlyDead (cli.withArgs w args config) = cli.OnlyDead config
  ∧ cli.IgnoreList (cli.withArgs w args config) = cli.IgnoreList config.
Proof.
  split_and!; try by destruct args.
  intros Hargs. destruct args as [|arg args]; [done |].
  unfold cli.withArgs. cbn [cli.InputPaths cli.InputURLs cli.set_inputs].
  split_and!; [done | done |].
  generalize (arg :: args). clear. intros l.
  induction l as [|x l IH]; [done |].
  rewrite !filter_cons. destruct (cli.isURL w x); simpl.
  - by rewrite <- Permutation_middle, IH.
  - by rewrite IH.
Qed.

Lemma withArgs_sorts_arguments_witness :
  cli.InputPaths (cli.withArgs sample.docs_world
                    ["README.md"; "http://host/page"; "docs"]
                    cli.default_config) = ["README.md"; "docs"]
  ∧ cli.InputURLs (cli.withArgs sample.docs_world
                     ["README.md"; "http://host/page"; "docs"]
                     cli.default_config) = ["http://host/page"].
Proof.
  destruct (withArgs_sorts_arguments sample.docs_world
              ["README.md"; "http://host/page"; "docs"] cli.default_config)
    as (_ & Hsome & _).
  destruct Hsome as (-> & -> & _); done.
Defined.

(** ** The pipeline, document by document *)

Section documents.
Variable w : World.
Variable config : cli.Config.

Lemma filterIgnored_elem link links :
  link ∈ cli.filterIgnored config links
  ↔ link ∈ links ∧ cli.IsURLIgnored config link = false.
Proof.
  unfold cli.filterIgnored. rewrite list_elem_of_filter.
  destruct (cli.IsURLIgnored config link); simpl; intuition congruence.
Qed.

Lemma toResults_URL source (sts : list validator.LinkStatus) :
  cli.URL <$> (cli.toResult source <$> sts) = validator.Link <$> sts.
Proof.
  rewrite <- list_fmap_compose. apply list_fmap_ext.
  intros i st _. apply toResult_URL.
Qed.

Lemma toResults_Source source (sts : list validator.LinkStatus) :
  Forall (λ result, cli.Source result = source) (cli.toResult source <$> sts).
Proof.
  apply Forall_fmap, Forall_forall. intros st _. apply toResult_Source.
Qed.

Lemma statuses_Link basePath timeout (links : list string) :
  validator.Link <$> (validator.statusOf w basePath timeout <$> links) = links.
Proof.
  rewrite <- list_fmap_compose.
  rewrite (list_fmap_ext _ id links) by (intros; apply statusOf_Link).
  apply list_fmap_id.
Qed.


(** A loop of [gather] fails only with the wrapped error of one of its
    items. *)
Lemma gather_Err {A : Type} (process : A → result (list cli.Result) → Prop)
    wrap acc xs e :
  cli.gather process wrap acc xs (Err e) →
  ∃ x msg, x ∈ xs ∧ process x (Err msg) ∧ e = wrap x msg.
Proof.
  intros Hgather. remember (Err e) as r eqn:Hr.
  induction Hgather as [acc | acc x xs e' He | acc x xs rs r Hx Hrest IH].
  - done.
  - injection Hr as <-. exists x, e'. split_and!; [left | done | done].
  - destruct (IH Hr) as (y & msg & Hy & Hmsg & ->).
    exists y, msg. split_and!; [by right | done | done].
Qed.

(** An item that can only fail makes the loop fail. *)
Lemma gather_blocked {A : Type} (process : A → result (list cli.Result) → Prop)
    wrap acc xs x r :
  x ∈ xs → (∀ rs, ¬ process x (Ok rs)) →
  cli.gather process wrap acc xs r → ∃ e, r = Err e.
Proof.
  intros Hx Hfails Hgather.
  induction Hgather as [acc | acc y xs e' He | acc y xs rs r Hy Hrest IH].
  - by apply not_elem_of_nil in Hx.
  - eauto.
  - apply elem_of_cons in Hx as [-> | Hx]; [by destruct (Hfails rs) | auto].
Qed.

Lemma gather_impl {A : Type} (P Q : A → result (list cli.Result) → Prop)
    wrap acc xs r :
  (∀ x r, P x r → Q x r) → cli.gather P wrap acc xs r → cli.gather Q wrap acc xs r.
Proof.
  intros HPQ. induction 1; econstructor; eauto.
Qed.

Lemma processPath_missing inputPath e r :
  Stat w inputPath = Err e →
  cli.processPath w config inputPath r →
  r = Err ("path does not exist: " +:+ inputPath).
Proof. intros Hstat. inversion 1; subst; congruence. Qed.

Lemma processURL_unreachable inputURL e r :
  FetchPage w (cli.Timeout config) inputURL = Err e →
  cli.processURL w config inputURL r →
  r = Err ("error fetching URL " +:+ inputURL +:+ ": " +:+ e).
Proof. intros Hfetch. inversion 1; subst; congruence. Qed.
End documents.

(** A markdown document that can be read never gives an error, whatever
    its links: [processMarkdownFile] returns results.  With at least one
    worker there is one result per link the ignore patterns let through (a
    permutation of those links), each with the document as source; an
    ignored link has no result.  A document that cannot be read gives an
    error that names it, and no results. *)
Theorem markdown_one_result_per_link (w : World) (config : cli.Config)
    (filePath : string) :
  (∃ r, cli.processMarkdownFile w config filePath r)
  ∧ (∀ links r,
       ExtractLinksFromFile w filePath = Ok links →
       cli.processMarkdownFile w config filePath r →
       ∃ results,
         r = Ok results
         ∧ Forall (λ result, cli.Source result = filePath) results
         ∧ (∀ result, result ∈ results →
              cli.URL result ∈ links
              ∧ cli.IsURLIgnored config (cli.URL result) = false)
         ∧ (1 ≤ cli.Workers config →
            cli.URL <$> results ≡ₚ cli.filterIgnored config links))
  ∧ (∀ e r,
       ExtractLinksFromFile w filePath = Err e →
       cli.processMarkdownFile w config filePath r →
       r = Err ("error extracting links from " +:+ filePath +:+ ": " +:+ e)).
Proof.
  split_and!.
  - destruct (ExtractLinksFromFile w filePath) as [links | e] eqn:Hread.
    + destruct (ValidateLinksAsync_returns w (cli.filterIgnored config links)
                  (Dir w filePath) (cli.Timeout config) (cli.Workers config))
        as [sts Hsts].
      eexists. by eapply cli.markdown_checked.
    + eexists. by eapply cli.markdown_unreadable.
  - intros links r Hread Hrun.
    destruct Hrun as [e He | links' sts Hread' Hsts]; [congruence |].
    assert (links' = links) as -> by congruence.
    eexists. split_and!; [done | apply toResults_Source | |].
    + intros result (st & -> & Hst)%list_elem_of_fmap.
      destruct (ValidateLinksAsync_checked _ _ _ _ _ _ _ Hsts Hst)
        as (link & Hlink & ->).
      rewrite toResult_URL, statusOf_Link. by apply filterIgnored_elem.
    + intros Hworkers. apply ValidateLinksAsync_all in Hsts; [| done].
      by rewrite toResults_URL, Hsts, statuses_Link.
  - intros e r Hread Hrun.
    destruct Hrun as [e' He' | links sts Hlinks Hsts]; congruence.
Qed.

Lemma markdown_one_result_per_link_witness :
  ∃ results,
    cli.processMarkdownFile sample.five_world
      (sample.config_for [] [] 4 false) "/d/five.md" (Ok results)
    ∧ cli.URL <$> results ≡ₚ sample.five_links.
Proof.
  destruct (markdown_one_result_per_link sample.five_world
              (sample.config_for [] [] 4 false) "/d/five.md")
    as ([r Hr] & Hread & _).
  destruct (Hread sample.five_links r eq_refl Hr)
    as (results & -> & _ & _ & Hall).
  exists results. split; [exact Hr |]. apply Hall. simpl. lia.
Defined.



(** A run with a missing first input. *)
Lemma sample_run_aborts :
  cli.runRealLinkChecker sample.docs_world
    (sample.config_for ["/d/gone.md"; "/d/doc.md"] [] 10 false)
    (Err "error processing path '/d/gone.md': path does not exist: /d/gone.md").
Proof.
  apply cli.run_path_error.
  set (wrap := λ inputPath e : string,
         "error processing path '" +:+ inputPath +:+ "': " +:+ e).
  assert (cli.gather
            (cli.processPath sample.docs_world
               (sample.config_for ["/d/gone.md"; "/d/doc.md"] [] 10 false))
            wrap [] ["/d/gone.md"; "/d/doc.md"]
            (Err (wrap "/d/gone.md" "path does not exist: /d/gone.md")))
    as Hgather; [| exact Hgather].
  apply cli.gather_error. by eapply cli.path_missing.
Qed.

(** One input that cannot be opened ends the whole run with an error and no
    output, whatever the other inputs are: a path [os.Stat] fails on, or a
    URL whose page cannot be fetched. *)
Theorem one_failing_input_aborts_the_run (w : World) (config : cli.Config)
    (input e : string) (r : result cli.Output) :
  (input ∈ cli.InputPaths config ∧ Stat w input = Err e)
  ∨ (input ∈ cli.InputURLs config
     ∧ FetchPage w (cli.Timeout config) input = Err e) →
  cli.runRealLinkChecker w config r →
  ∃ msg, r = Err msg.
Proof.
  intros Hinput Hrun.
  destruct Hrun as [e' Hpaths | fileResults e' Hpaths Hurls
                    | fileResults results duration e' Hpaths Hurls
                    | fileResults results duration Hpaths Hurls _]; eauto.
  destruct Hinput as [[Hin Hstat] | [Hin Hfetch]].
  - eapply gather_blocked in Hpaths as [? [=]]; [done |].
    intros rs Hrs. by apply (processPath_missing _ _ _ _ _ Hstat) in Hrs.
  - eapply gather_blocked in Hurls as [? [=]]; [done |].
    intros rs Hrs. by apply (processURL_unreachable _ _ _ _ _ Hfetch) in Hrs.
Qed.

Lemma one_failing_input_aborts_the_run_witness :
  ∃ msg,
    cli.runRealLinkChecker sample.docs_world
      (sample.config_for ["/d/gone.md"; "/d/doc.md"] [] 10 false) (Err msg).
Proof.
  destruct (one_failing_input_aborts_the_run sample.docs_world
              (sample.config_for ["/d/gone.md"; "/d/doc.md"] [] 10 false)
              "/d/gone.md" "stat /d/gone.md: no such file or directory" _
              (or_introl (conj (list_elem_of_here _ _) eq_refl))
              sample_run_aborts) as [msg Hmsg].
  exists msg. rewrite <- Hmsg. exact sample_run_aborts.
Defined.

(** The errors of [runRealLinkChecker]: the wrapped error of [processPath]
    on one of the input paths, the wrapped error of [processURL] on one of
    the input URLs, or, with the json format only, the error of
    [outputJSON], which is reached only once every input path and every
    input URL has been processed without error.  With any other format the
    run fails only on an input. *)
Theorem run_fails_on_an_input_or_the_output (w : World) (config : cli.Config)
    (e : string) :
  cli.runRealLinkChecker w config (Err e) →
  (∃ inputPath msg,
     inputPath ∈ cli.InputPaths config
     ∧ cli.processPath w config inputPath (Err msg)
     ∧ e = "error processing path '" +:+ inputPath +:+ "': " +:+ msg)
  ∨ (∃ inputURL msg,
       inputURL ∈ cli.InputURLs config
       ∧ cli.processURL w config inputURL (Err msg)
       ∧ e = "error processing URL '" +:+ inputURL +:+ "': " +:+ msg)
  ∨ (cli.Format config = "json"
     ∧ ∃ fileBatches urlBatches duration,
         Forall2 (λ inputPath batch,
                    cli.processPath w config inputPath (Ok batch))
           (cli.InputPaths config) fileBatches
         ∧ Forall2 (λ inputURL batch,
                      cli.processURL w config inputURL (Ok batch))
             (cli.InputURLs config) urlBatches
         ∧ cli.outputJSON
             (cli.report config (concat fileBatches ++ concat urlBatches)
                duration) (Err e)).
Proof.
  inversion 1 as [e' Hpaths | fileResults e' Hpaths Hurls
                  | fileResults results duration e' Hpaths Hurls Hjson Hout |];
    subst.
  - left. by apply gather_Err in Hpaths.
  - right; left. by apply gather_Err in Hurls.
  - right; right. split; [done |].
    apply gather_batches in Hpaths as (fileBatches & Hfiles & ->).
    apply gather_batches in Hurls as (urlBatches & Hpages & ->).
    by exists fileBatches, urlBatches, duration.
Qed.

Lemma run_fails_on_an_input_or_the_output_witness :
  ∃ inputPath msg,
    inputPath ∈ ["/d/gone.md"; "/d/doc.md"]
    ∧ cli.processPath sample.docs_world
        (sample.config_for ["/d/gone.md"; "/d/doc.md"] [] 10 false)
        inputPath (Err msg)
    ∧ "error processing path '/d/gone.md': path does not exist: /d/gone.md"
      = "error processing path '" +:+ inputPath +:+ "': " +:+ msg.
Proof.
  destruct (run_fails_on_an_input_or_the_output sample.docs_world
              (sample.config_for ["/d/gone.md"; "/d/doc.md"] [] 10 false)
              _ sample_run_aborts)
    as [Hpath | [(u & msg & Hu & _) | [Hjson _]]].
  - exact Hpath.
  - by apply not_elem_of_nil in Hu.
  - discriminate Hjson.
Defined.

(** ** The report *)

Lemma countValid_counts (results : list cli.Result) :
  Forall cli.from_status results →
  fst (cli.countValid results)
  = Z.of_nat (length (filter (λ result, cli.Status result = "valid") results))
  ∧ snd (cli.countValid results)
    = Z.of_nat (length (filter (λ result, cli.Status result = "invalid") results)).
Proof.
  induction 1 as [|result rest (source & st & ->) _ IH]; [done |].
  simpl. destruct (cli.countValid rest) as [valid invalid].
  rewrite !filter_cons, toResult_Status.
  destruct (validator.Valid st); simpl in *; lia.
Qed.

Lemma onlyDead_from_status (results : list cli.Result) :
  Forall cli.from_status results → Forall cli.from_status (cli.onlyDead results).
Proof.
  intros Hall. apply Forall_forall. intros result [Hin _]%elem_of_onlyDead.
  by eapply Forall_forall in Hall.
Qed.

(** The summary of every output, filtered or not, counts the results shown:
    total is their number, valid the number of those with status "valid",
    invalid the number of those with status "invalid", and the two add up to
    the total.  The output is the report of the merged batches, those
    [processPath] returned for each input path, in order, followed by those
    [processURL] returned for each input URL; without only-dead the results
    shown are all of them, in that order. *)
Theorem summary_counts_the_results (w : World) (config : cli.Config)
    (out : cli.Output) :
  cli.runRealLinkChecker w config (Ok out) →
  cli.Total out = Z.of_nat (length (cli.Results out))
  ∧ cli.Valid out
    = Z.of_nat (length (filter (λ result, cli.Status result = "valid")
                          (cli.Results out)))
  ∧ cli.Invalid out
    = Z.of_nat (length (filter (λ result, cli.Status result = "invalid")
                          (cli.Results out)))
  ∧ cli.Valid out + cli.Invalid out = cli.Total out
  ∧ ∃ fileBatches urlBatches duration,
      Forall2 (λ inputPath batch, cli.processPath w config inputPath (Ok batch))
        (cli.InputPaths config) fileBatches
      ∧ Forall2 (λ inputURL batch, cli.processURL w config inputURL (Ok batch))
          (cli.InputURLs config) urlBatches
      ∧ out = cli.report config (concat fileBatches ++ concat urlBatches)
                duration
      ∧ (cli.OnlyDead config = false →
         cli.Results out = concat fileBatches ++ concat urlBatches).
Proof.
  intros Hrun.
  destruct (runRealLinkChecker_merged w config out Hrun)
    as (fileBatches & urlBatches & duration & Hfiles & Hpages & Hmerged & ->).
  set (merged := concat fileBatches ++ concat urlBatches) in *.
  rewrite report_fields. simpl.
  assert (Forall cli.from_status
            (if cli.OnlyDead config then cli.onlyDead merged else merged))
    as Hshown by (destruct (cli.OnlyDead config); auto using onlyDead_from_status).
  destruct (countValid_counts _ Hshown) as [Hvalid Hinvalid].
  split_and!; try done.
  - apply countValid_total.
  - exists fileBatches, urlBatches, duration. fold merged.
    rewrite report_fields. split_and!; [done | done | done |].
    simpl. by intros ->.
Qed.

Lemma summary_counts_the_results_witness :
  ∃ out,
    cli.runRealLinkChecker sample.five_world
      (sample.config_for ["/d/five.md"] [] 3 false) (Ok out)
    ∧ cli.Total out = 5 ∧ cli.Valid out = 2 ∧ cli.Invalid out = 3.
Proof.
  set (config := sample.config_for ["/d/five.md"] [] 3 false).
  destruct (ValidateLinksAsync_returns sample.five_world sample.five_links
              "/d" (cli.Timeout config) 3) as [sts Hpool].
  set (out := cli.report config (cli.toResult "/d/five.md" <$> sts) "1ms").
  assert (cli.runRealLinkChecker sample.five_world config (Ok out)) as Hrun.
  { apply cli.run_output with (fileResults := cli.toResult "/d/five.md" <$> sts);
      [| apply cli.gather_end | reflexivity].
    eapply cli.gather_next; [| apply cli.gather_end].
    eapply cli.path_markdown; [reflexivity | reflexivity | reflexivity |].
    eapply cli.markdown_checked; [reflexivity | exact Hpool]. }
  exists out. split; [exact Hrun |].
  destruct (summary_counts_the_results sample.five_world config out Hrun)
    as (Htotal & Hvalid & Hinvalid & _).
  apply ValidateLinksAsync_all in Hpool; [| simpl; lia].
  assert (cli.Results out = cli.toResult "/d/five.md" <$> sts) as Hresults
    by (unfold out; by rewrite report_fields).
  rewrite Htotal, Hvalid, Hinvalid, Hresults, Hpool. by vm_compute.
Defined.

(** ** The recursive flag *)

Section recursive.
Variable w : World.

Lemma processMarkdownFile_Recursive b config filePath r :
  cli.processMarkdownFile w (cli.set_Recursive b config) filePath r
  ↔ cli.processMarkdownFile w config filePath r.
Proof.
  split; destruct 1 as [e He | links sts Hlinks Hsts].
  - by apply cli.markdown_unreadable.
  - by eapply (cli.markdown_checked w config).
  - by apply cli.markdown_unreadable.
  - by eapply (cli.markdown_checked w (cli.set_Recursive b config)).
Qed.

Lemma processURL_Recursive b config inputURL r :
  cli.processURL w (cli.set_Recursive b config) inputURL r
  ↔ cli.processURL w config inputURL r.
Proof.
  split; destruct 1 as [e He | e He | content e Hc He | content baseURL sts Hc Hb Hsts].
  - by apply (cli.url_unreachable w config).
  - by apply (cli.url_unreadable w config).
  - by eapply (cli.url_unparsable w config).
  - by eapply (cli.url_checked w config).
  - by apply (cli.url_unreachable w (cli.set_Recursive b config)).
  - by apply (cli.url_unreadable w (cli.set_Recursive b config)).
  - by eapply (cli.url_unparsable w (cli.set_Recursive b config)).
  - by eapply (cli.url_checked w (cli.set_Recursive b config)).
Qed.

Lemma walkFn_Recursive b config entry r :
  cli.walkFn w (cli.set_Recursive b config) entry r
  ↔ cli.walkFn w config entry r.
Proof.
  split; intros Hwalk.
  - destruct Hwalk as [e He | info r Hinfo Hmd Hr | info Hinfo Hmd];
      [by eapply cli.walk_failed | | by eapply cli.walk_other].
    eapply cli.walk_markdown; eauto. by apply processMarkdownFile_Recursive in Hr.
  - destruct Hwalk as [e He | info r Hinfo Hmd Hr | info Hinfo Hmd];
      [by eapply cli.walk_failed | | by eapply cli.walk_other].
    eapply cli.walk_markdown; eauto. by apply processMarkdownFile_Recursive.
Qed.

Lemma processPath_Recursive b config inputPath r :
  cli.processPath w (cli.set_Recursive b config) inputPath r
  ↔ cli.processPath w config inputPath r.
Proof.
  split; intros Hpath.
  - destruct Hpath as [e He | info r Hstat Hdir Hwalk
                       | info r Hstat Hdir Hmd Hr | info Hstat Hdir Hmd];
      [by eapply cli.path_missing | | | by eapply cli.path_other].
    + eapply cli.path_directory; eauto.
      eapply gather_impl; [| exact Hwalk].
      intros x r' Hx. by apply walkFn_Recursive in Hx.
    + eapply cli.path_markdown; eauto.
      by apply processMarkdownFile_Recursive in Hr.
  - destruct Hpath as [e He | info r Hstat Hdir Hwalk
                       | info r Hstat Hdir Hmd Hr | info Hstat Hdir Hmd];
      [by eapply cli.path_missing | | | by eapply cli.path_other].
    + eapply cli.path_directory; eauto.
      eapply gather_impl; [| exact Hwalk].
      intros x r' Hx. by apply walkFn_Recursive.
    + eapply cli.path_markdown; eauto. by apply processMarkdownFile_Recursive.
Qed.
End recursive.

(** The recursive flag changes nothing: whatever its value,
    [runRealLinkChecker] has the same outcomes, and so has [processPath] on
    every input path, a directory included. *)
Theorem recursive_flag_has_no_effect (w : World) (config : cli.Config)
    (b : bool) :
  (∀ r, cli.runRealLinkChecker w (cli.set_Recursive b config) r
        ↔ cli.runRealLinkChecker w config r)
  ∧ (∀ inputPath r,
       cli.processPath w (cli.set_Recursive b config) inputPath r
       ↔ cli.processPath w config inputPath r).
Proof.
  split; [| intros; apply processPath_Recursive].
  intros r. split; intros Hrun.
  - destruct Hrun as [e Hpaths | fileResults e Hpaths Hurls
                      | fileResults results duration e Hpaths Hurls Hjson Hout
                      | fileResults results duration Hpaths Hurls Hout].
    + apply cli.run_path_error.
      eapply gather_impl; [| exact Hpaths].
      intros x r' Hx. by apply processPath_Recursive in Hx.
    + eapply cli.run_url_error.
      * eapply gather_impl; [| exact Hpaths].
        intros x r' Hx. by apply processPath_Recursive in Hx.
      * eapply gather_impl; [| exact Hurls].
        intros x r' Hx. by apply processURL_Recursive in Hx.
    + apply (cli.run_output_error w config fileResults results duration);
        [| | exact Hjson | exact Hout].
      * eapply gather_impl; [| exact Hpaths].
        intros x r' Hx. by apply processPath_Recursive in Hx.
      * eapply gather_impl; [| exact Hurls].
        intros x r' Hx. by apply processURL_Recursive in Hx.
    + apply (cli.run_output w config fileResults results duration);
        [| | exact Hout].
      * eapply gather_impl; [| exact Hpaths].
        intros x r' Hx. by apply processPath_Recursive in Hx.
      * eapply gather_impl; [| exact Hurls].
        intros x r' Hx. by apply processURL_Recursive in Hx.
  - destruct Hrun as [e Hpaths | fileResults e Hpaths Hurls
                      | fileResults results duration e Hpaths Hurls Hjson Hout
                      | fileResults results duration Hpaths Hurls Hout].
    + apply cli.run_path_error.
      eapply gather_impl; [| exact Hpaths].
      intros x r' Hx. by apply processPath_Recursive.
    + eapply cli.run_url_error.
      * eapply gather_impl; [| exact Hpaths].
        intros x r' Hx. by apply processPath_Recursive.
      * eapply gather_impl; [| exact Hurls].
        intros x r' Hx. by apply processURL_Recursive.
    + apply (cli.run_output_error w (cli.set_Recursive b config)
               fileResults results duration); [| | exact Hjson | exact Hout].
      * eapply gather_impl; [| exact Hpaths].
        intros x r' Hx. by apply processPath_Recursive.
      * eapply gather_impl; [| exact Hurls].
        intros x r' Hx. by apply processURL_Recursive.
    + apply (cli.run_output w (cli.set_Recursive b config)
               fileResults results duration); [| | exact Hout].
      * eapply gather_impl; [| exact Hpaths].
        intros x r' Hx. by apply processPath_Recursive.
      * eapply gather_impl; [| exact Hurls].
        intros x r' Hx. by apply processURL_Recursive.
Qed.

(** ** The shape of the results *)

Section shapes.
Variable w : World.
Variable config : cli.Config.

(** A result built from the status some link got from [checkLink]. *)
Local Abbreviation checked result :=
  (∃ source basePath timeout link,
     result = cli.toResult source (validator.statusOf w basePath timeout link)).

Lemma checkLink_valid_code basePath timeout link st :
  validator.checkLink w basePath timeout link = Some st →
  validator.Valid st = true → validator.isHTTP link = true →
  200 ≤ validator.StatusCode st < 400.
Proof.
  unfold validator.checkLink. intros Hst Hvalid Hhttp. rewrite Hhttp in Hst.
  unfold validator.checkHTTP, validator.classifyResponse in Hst.
  destruct (validator.client_Head w timeout link) as [[resp | e] |]; [| | done].
  - destruct (_ && _) eqn:Hcode; injection Hst as <-; simpl in *; [lia | done].
  - destruct (validator.client_Get w timeout link) as [[resp | e'] |]; [| | done].
    + destruct (_ && _) eqn:Hcode; injection Hst as <-; simpl in *; [lia | done].
    + destruct (Contains e' "timeout"); by injection Hst as <-.
Qed.

Lemma toResults_checked source basePath timeout links maxWorkers sts :
  validator.ValidateLinksAsync w links basePath timeout maxWorkers sts →
  Forall (λ result, checked result) (cli.toResult source <$> sts).
Proof.
  intros Hsts. apply Forall_fmap, Forall_forall. intros st Hst.
  destruct (ValidateLinksAsync_checked _ _ _ _ _ _ _ Hsts Hst) as (link & _ & ->).
  simpl. eauto.
Qed.

Lemma processMarkdownFile_checked filePath results :
  cli.processMarkdownFile w config filePath (Ok results) →
  Forall (λ result, checked result) results.
Proof. inversion 1; subst. by eapply toResults_checked. Qed.

Lemma processURL_checked inputURL results :
  cli.processURL w config inputURL (Ok results) →
  Forall (λ result, checked result) results.
Proof. inversion 1; subst. by eapply toResults_checked. Qed.

Lemma processPath_checked inputPath results :
  cli.processPath w config inputPath (Ok results) →
  Forall (λ result, checked result) results.
Proof.
  inversion 1 as [| info r Hstat Hdir Hwalk | |]; subst.
  - eapply (gather_Forall (λ result, checked result)); [| exact Hwalk | done].
    intros entry rs Hentry.
    inversion Hentry; subst; [by eapply processMarkdownFile_checked | done].
  - by eapply processMarkdownFile_checked.
  - done.
Qed.

Lemma runRealLinkChecker_checked out :
  cli.runRealLinkChecker w config (Ok out) →
  Forall (λ result, checked result) (cli.Results out).
Proof.
  inversion 1 as [| | | fileResults results duration Hpaths Hurls _]; subst.
  assert (Forall (λ result, checked result) results) as Hall.
  { eapply (gather_Forall (λ result, checked result)); [| exact Hurls |].
    - apply processURL_checked.
    - eapply (gather_Forall (λ result, checked result)); [| exact Hpaths | done].
      apply processPath_checked. }
  rewrite report_fields. simpl. destruct (cli.OnlyDead config); [| done].
  apply Forall_forall. intros result [Hin _]%elem_of_onlyDead.
  by eapply Forall_forall in Hall.
Qed.
End shapes.

(** Every result of an output has status "valid" or "invalid"; a valid
    result carries no error text; the result of a file link carries no
    status code (it is 0, which the report leaves out); a valid result of an
    HTTP link carries a status code in [200, 400). *)
Theorem results_are_well_formed (w : World) (config : cli.Config)
    (out : cli.Output) :
  cli.runRealLinkChecker w config (Ok out) →
  Forall (λ result,
            (cli.Status result = "valid" ∨ cli.Status result = "invalid")
            ∧ (cli.Status result = "valid" → cli.Error result = "")
            ∧ (validator.isHTTP (cli.URL result) = false →
               cli.StatusCode result = 0)
            ∧ (cli.Status result = "valid" →
               validator.isHTTP (cli.URL result) = true →
               200 ≤ cli.StatusCode result < 400))
    (cli.Results out).
Proof.
  intros Hrun%runRealLinkChecker_checked.
  eapply Forall_impl; [exact Hrun |]. simpl.
  intros result (source & basePath & timeout & link & ->).
  pose proof (checkLink_returns w basePath timeout link) as Hst.
  destruct (checkLink_wellformed _ _ _ _ _ Hst) as (_ & Hfile & _).
  pose proof (checkLink_valid_code _ _ _ _ _ Hst) as Hcode.
  rewrite toResult_URL, statusOf_Link, toResult_Status.
  unfold cli.toResult.
  destruct (validator.Valid (validator.statusOf w basePath timeout link));
    simpl; split_and!; auto; done.
Qed.

Lemma results_are_well_formed_witness :
  ∃ out,
    cli.runRealLinkChecker sample.five_world
      (sample.config_for ["/d/five.md"] [] 3 false) (Ok out)
    ∧ Forall (λ result, cli.Status result = "valid" → cli.Error result = "")
        (cli.Results out).
Proof.
  set (config := sample.config_for ["/d/five.md"] [] 3 false).
  destruct (ValidateLinksAsync_returns sample.five_world sample.five_links
              "/d" (cli.Timeout config) 3) as [sts Hpool].
  set (out := cli.report config (cli.toResult "/d/five.md" <$> sts) "1ms").
  assert (cli.runRealLinkChecker sample.five_world config (Ok out)) as Hrun.
  { apply cli.run_output with (fileResults := cli.toResult "/d/five.md" <$> sts);
      [| apply cli.gather_end | reflexivity].
    eapply cli.gather_next; [| apply cli.gather_end].
    eapply cli.path_markdown; [reflexivity | reflexivity | reflexivity |].
    eapply cli.markdown_checked; [reflexivity | exact Hpool]. }
  exists out. split; [exact Hrun |].
  eapply Forall_impl;
    [exact (results_are_well_formed sample.five_world config out Hrun) |].
  simpl. tauto.
Defined.

(** ** The groups of the text report *)

Lemma sourceGroups_snoc (results : list cli.Result) (result : cli.Result) :
  cli.sourceGroups (results ++ [result])
  = <[cli.Source result :=
        default [] (cli.sourceGroups results !! cli.Source result) ++ [result]]>
      (cli.sourceGroups results).
Proof. unfold cli.sourceGroups. by rewrite foldl_app. Qed.

(** [outputText] groups the results by source: the group of a source holds
    exactly the results with that source, in their order, and a source
    without results has no group. *)
Theorem sourceGroups_by_source (results : list cli.Result) (source : string) :
  cli.sourceGroups results !! source
  = match filter (λ result, cli.Source result = source) results with
    | [] => None
    | group => Some group
    end.
Proof.
  induction results as [|result results IH] using rev_ind; [done |].
  rewrite sourceGroups_snoc, filter_app, filter_cons, filter_nil.
  destruct (decide (cli.Source result = source)) as [<- | Hother].
  - rewrite lookup_insert_eq, IH.
    by destruct (filter _ results).
  - rewrite lookup_insert_ne by done. by rewrite IH, app_nil_r.
Qed.

(** ** The links of a page *)

Section html.
Import parser.

Lemma Node_forall_ind (P : Node → Prop) :
  (∀ t d a cs, Forall P cs → P (mkNode t d a cs)) → ∀ n, P n.
Proof.
  intros Hnode. fix IH 1. intros [t d a cs]. apply Hnode.
  induction cs as [|c cs IHcs]; constructor; [apply IH | apply IHcs].
Qed.

Lemma walk_unfold n : walk n = hrefs n ++ flat_map walk (children n).
Proof. by destruct n. Qed.

Lemma walk_elem link : ∀ root,
  link ∈ walk root ↔ ∃ n, in_tree n root ∧ link ∈ hrefs n.
Proof.
  intros root. split.
  - revert root. apply (Node_forall_ind (λ root, link ∈ walk root → _)).
    intros t d a cs IH. rewrite walk_unfold. simpl.
    intros [Hhere | Hbelow]%elem_of_app.
    + exists (mkNode t d a cs). split; [constructor | done].
    + apply list_elem_of_In, in_flat_map in Hbelow as (c & Hc & Hlink).
      apply list_elem_of_In in Hc, Hlink.
      eapply Forall_forall in IH; [| exact Hc].
      destruct (IH Hlink) as (n & Hn & Hhref).
      exists n. split; [| done]. by eapply in_tree_child.
  - intros (n & Hn & Hhref).
    induction Hn as [| root child Hchild Hn IH]; rewrite walk_unfold.
    + apply elem_of_app. by left.
    + apply elem_of_app. right. apply list_elem_of_In, in_flat_map.
      exists child. split; by apply list_elem_of_In.
Qed.

Lemma hrefs_elem link n :
  link ∈ hrefs n ↔
  Type_ n = ElementNode ∧ Data n = "a"
  ∧ ∃ attr, attr ∈ Attr n ∧ Key attr = "href" ∧ Val attr = link.
Proof.
  unfold hrefs. destruct (isElement (Type_ n) && String.eqb (Data n) "a") eqn:Ha.
  - apply andb_prop in Ha as [Helem Hdata]. apply String.eqb_eq in Hdata.
    assert (Type_ n = ElementNode) as Ht by (by destruct (Type_ n)).
    rewrite list_elem_of_omap. split.
    + intros (attr & Hattr & Hkey).
      destruct (String.eqb (Key attr) "href") eqn:Hhref; [| done].
      apply String.eqb_eq in Hhref. injection Hkey as <-. eauto 10.
    + intros (_ & _ & attr & Hattr & Hkey & <-). exists attr.
      split; [done |]. by rewrite Hkey.
  - split; [by intros ?%not_elem_of_nil |].
    intros (Ht & Hdata & _). rewrite Ht, Hdata in Ha. done.
Qed.
End html.

(** [ExtractLinksFromHTML] finds exactly the [href] values of the [a]
    elements of the parsed document, at any depth: a string is among the
    links exactly when some [a] element of the tree has an [href] attribute
    with that value; the [href] of any other element is never taken.  A
    document that does not parse has no links (and gives no error), so
    [ExtractLinksFromHTMLFile] fails only when the file cannot be read. *)
Theorem ExtractLinksFromHTML_finds_the_anchors
    (parse : string → result parser.Node) (read : string → result string)
    (path content link : string) :
  (link ∈ parser.ExtractLinksFromHTML parse content ↔
   ∃ doc n attr,
     parse content = Ok doc ∧ parser.in_tree n doc
     ∧ parser.Type_ n = parser.ElementNode ∧ parser.Data n = "a"
     ∧ attr ∈ parser.Attr n
     ∧ parser.Key attr = "href" ∧ parser.Val attr = link)
  ∧ (∀ e, parse content = Err e →
          parser.ExtractLinksFromHTML parse content = [])
  ∧ (read path = Ok content →
     parser.ExtractLinksFromHTMLFile read parse path
     = Ok (parser.ExtractLinksFromHTML parse content))
  ∧ (∀ e, read path = Err e →
          parser.ExtractLinksFromHTMLFile read parse path = Err e).
Proof.
  unfold parser.ExtractLinksFromHTMLFile.
  split_and!; [| | by intros -> | by intros e ->];
    unfold parser.ExtractLinksFromHTML;
    destruct (parse content) as [doc | e]; try done.
  - rewrite walk_elem. split.
    + intros (n & Hn & (Ht & Hd & attr & Hattr & Hkey & Hval)%hrefs_elem).
      exists doc, n, attr. by split_and!.
    + intros (doc' & n & attr & [= <-] & Hn & Ht & Hd & Hattr & Hkey & Hval).
      exists n. split; [done |]. apply hrefs_elem. eauto 10.
  - split; [by intros ?%not_elem_of_nil |].
    by intros (doc & n & attr & [=] & _).
Qed.

(** A page with two anchors in its body and a stylesheet link in its head:
    the anchors' targets are found, in document order, the stylesheet is
    not. *)
Lemma ExtractLinksFromHTML_finds_the_anchors_witness :
  let anchor href :=
    parser.mkNode parser.ElementNode "a"
      [{| parser.Key := "href"; parser.Val := href |}]
      [parser.mkNode parser.TextNode "text" [] []] in
  let page :=
    parser.mkNode parser.DocumentNode "" []
      [parser.mkNode parser.ElementNode "html" []
         [parser.mkNode parser.ElementNode "head" []
            [parser.mkNode parser.ElementNode "link"
               [{| parser.Key := "href"; parser.Val := "style.css" |}] []];
          parser.mkNode parser.ElementNode "body" []
            [anchor "https://example.com"; anchor "test.html"]]] in
  parser.ExtractLinksFromHTMLFile (λ _, Ok "page") (λ _, Ok page) "page.html"
  = Ok ["https://example.com"; "test.html"].
Proof.
  intros anchor page.
  destruct (ExtractLinksFromHTML_finds_the_anchors (λ _, Ok page)
              (λ _, Ok "page") "page.html" "page" "") as (_ & _ & Hread & _).
  by rewrite Hread.
Defined.

(** ** The links of a markdown document *)

Section markdown.
Import parser.

Lemma AstNode_forall_ind (P : AstNode → Prop) :
  (∀ d ks, Forall P ks → P (Link d ks)) →
  (∀ ks, Forall P ks → P (Other ks)) → ∀ n, P n.
Proof.
  intros Hlink Hother. fix IH 1. intros [d ks | ks].
  - apply Hlink. induction ks as [|c ks IHks]; constructor; [apply IH | apply IHks].
  - apply Hother. induction ks as [|c ks IHks]; constructor; [apply IH | apply IHks].
Qed.

Lemma walkAst_below link ks :
  Forall (λ c, link ∈ walkAst c → ∃ ks', in_ast (Link link ks') c) ks →
  link ∈ flat_map walkAst ks →
  ∃ c ks', c ∈ ks ∧ in_ast (Link link ks') c.
Proof.
  intros IH Hbelow.
  apply list_elem_of_In, in_flat_map in Hbelow as (c & Hc & Hlink).
  apply list_elem_of_In in Hc, Hlink.
  eapply Forall_forall in IH; [| exact Hc].
  destruct (IH Hlink) as [ks' Hn]. eauto.
Qed.

Lemma walkAst_elem link : ∀ root,
  link ∈ walkAst root ↔ ∃ ks, in_ast (Link link ks) root.
Proof.
  intros root. split.
  - revert root. apply (AstNode_forall_ind (λ root, link ∈ walkAst root → _)).
    + intros d ks IH. simpl. intros [-> | Hbelow]%elem_of_cons.
      * exists ks. constructor.
      * destruct (walkAst_below _ _ IH Hbelow) as (c & ks' & Hc & Hn).
        exists ks'. by eapply in_ast_child.
    + intros ks IH. simpl. intros Hbelow.
      destruct (walkAst_below _ _ IH Hbelow) as (c & ks' & Hc & Hn).
      exists ks'. by eapply in_ast_child.
  - intros [ks Hn]. remember (Link link ks) as n eqn:Heq.
    induction Hn as [| root child Hchild Hn IH].
    + subst. left.
    + assert (link ∈ flat_map walkAst (kids root)) as Hbelow.
      { apply list_elem_of_In, in_flat_map. exists child.
        split; apply list_elem_of_In; auto. }
      destruct root; simpl in *; [by right | done].
Qed.
End markdown.

(** [ExtractLinks] finds exactly the destinations of the link nodes of the
    parsed document, at any depth: a string is among the links exactly when
    the tree has a link node with that destination.  [ExtractLinksFromFile]
    gives the links of the file's content, or the error of reading the
    file. *)
Theorem ExtractLinks_finds_the_link_nodes (parse : string → parser.AstNode)
    (read : string → result string) (path content link : string) :
  (link ∈ parser.ExtractLinks parse content ↔
   ∃ ks, parser.in_ast (parser.Link link ks) (parse content))
  ∧ (read path = Ok content →
     parser.ExtractLinksFromFile read parse path
     = Ok (parser.ExtractLinks parse content))
  ∧ (∀ e, read path = Err e →
          parser.ExtractLinksFromFile read parse path = Err e).
Proof.
  unfold parser.ExtractLinksFromFile, parser.ExtractLinks. split_and!.
  - apply walkAst_elem.
  - by intros ->.
  - by intros e ->.
Qed.

Lemma ExtractLinks_finds_the_link_nodes_witness :
  parser.ExtractLinksFromFile (λ _, Ok "doc")
    (λ _, parser.Other
            [parser.Other [parser.Link "https://example.com" []];
             parser.Other []; parser.Link "ref.md" [parser.Other []]])
    "README.md"
  = Ok ["https://example.com"; "ref.md"].
Proof.
  destruct (ExtractLinks_finds_the_link_nodes
              (λ _, parser.Other
                      [parser.Other [parser.Link "https://example.com" []];
                       parser.Other []; parser.Link "ref.md" [parser.Other []]])
              (λ _, Ok "doc") "README.md" "doc" "") as (_ & Hread & _).
  by rewrite Hread.
Defined.

(** ** The requests of one check *)

Lemma client_do_more_fuel policy send : ∀ fuel fuel' url via r,
  client_do fuel policy send url via = Some r → (fuel ≤ fuel')%nat →
  client_do fuel' policy send url via = Some r.
Proof.
  induction fuel as [|fuel IH]; intros fuel' url via r; [done |].
  destruct fuel' as [|fuel']; [lia |]. simpl.
  destruct (send url) as [resp | e]; [| done].
  destruct (shouldRedirect (RespStatusCode resp)); [| done].
  destruct (RespLocation resp) as [[loc | e] |]; [| done ..].
  destruct (policy (S via)); try done.
  intros Hr Hle. apply (IH fuel'); [done | lia].
Qed.

(** One [Head] or [Get] call of the check ends within ten requests: a
    budget of ten requests gives a result, and no larger budget gives
    another. *)
Theorem call_ends_within_ten_requests (send : string → result Response)
    (url : string) (fuel : nat) :
  (10 ≤ fuel)%nat →
  ∃ r, client_do 10 validator.CheckRedirect send url 0 = Some r
       ∧ client_do fuel validator.CheckRedirect send url 0 = Some r.
Proof.
  intros Hfuel.
  destruct (client_do_returns send 10 url 0) as [r Hr]; [lia | lia |].
  exists r. split; [done |]. by eapply client_do_more_fuel.
Qed.

Lemma call_ends_within_ten_requests_witness :
  ∃ r, client_do 10 validator.CheckRedirect
         (transport (sample.world (sample.redirect_chain 30) [] [] []) 30 HEAD)
         "http://host/" 0 = Some r
       ∧ client_do 40 validator.CheckRedirect
           (transport (sample.world (sample.redirect_chain 30) [] [] []) 30 HEAD)
           "http://host/" 0 = Some r.
Proof.
  apply (call_ends_within_ten_requests _ "http://host/" 40). lia.
Defined.
